(** * tedium: the batch orchestration flow of [src/tedium.ts]

    A shallow embedding of the main flow of the bot: repository discovery
    and de-duplication ([getRepos]), the push budget ([pushIsAllowed]), the
    publish pipeline ([pushChanges], [pushBranch], [createPullRequest]), the
    sequential transform-and-publish loop of [_main], the reporter
    ([reportOnChangesMade]), the top-level [main], and the delay chain
    [rateLimit].

    The program is asynchronous JavaScript that talks to collaborators
    (GitHub, nodegit, hydrolysis, the file system).  Sequential [await]
    code is written in a state-and-exception monad over a [World] that
    holds the module's global counters, the shared [elements] array (whose
    objects are mutated in place) and a trace of everything the program
    asked of its collaborators.  What the collaborators answer is given by
    an environment [Env] of oracles, each of which may depend on the whole
    trace so far.  Progress bars are display only and are left out. *)

From Stdlib Require Import ZArith NArith Lia Ascii String.
From stdpp Require Import base tactics option list strings pretty gmap.

Local Open Scope string_scope.
Local Open Scope list_scope.
Local Open Scope nat_scope.

(** ** Data *)

(** [GitHub.User] and [GitHub.Repo] of [custom_typings/main.d.ts]. *)
Record User := mkUser { login : string }.

Record Repo := mkRepo {
  owner : User;
  name : string;
  clone_url : string
}.

(** A [nodegit.Repository] and a [nodegit.Remote] are opaque handles. *)
Definition Repository := string.
Definition Remote := string.

(** An [ElementRepo] as [tedium.ts] uses it.  The object literal of [_main]
    sets [repo], [dir], [ghRepo] and [analyzer: null]; every other field
    starts out [undefined], which every test in the file reads as false. *)
Record ElementRepo := mkElement {
  repo : Repository;
  dir : string;
  ghRepo : Repo;
  analyzer : bool;
  dirty : bool;
  needsReview : bool;
  pushDenied : bool;
  pushSucceeded : bool;
  pushFailed : bool
}.

(** A thrown JavaScript value: its [stack] property when it has one, and
    what it converts to as a string.  Thrown values are objects or
    primitives other than [null] and [undefined], so that reading [stack]
    is always possible. *)
Record exn := mkExn {
  stack : option string;
  text : string
}.

(** [err.stack || err] inside a template literal, which converts it to a
    string: an absent or empty stack is falsy. *)
Definition stack_or_string (err : exn) : string :=
  match stack err with
  | Some s => if decide (s = "") then text err else s
  | None => text err
  end.

(** The three push-outcome fields of an element. *)
Inductive PushFlag := Denied | Succeeded | Failed.

(** Requests made to collaborators. *)
Inductive Call :=
| Rimraf (p : string)
| MkdirSync (p : string)
| UserGet
| ReposGet (user repo_ : string)
| ReposGetFromOrg (org : string) (per_page page : nat)
| OpenOrCloneAll (ghRepos : list Repo)
| AnalyzeRepos
| GetHeadCommit (r : Repository)
| BranchCreate (r : Repository) (branchName : string) (commit : string)
    (force : bool)
| CheckoutBranch (r : Repository) (branch : string)
| RateLimit (delay : nat)
| Cleanup (d : string)
| GetRemote (r : Repository) (remote : string)
| RemotePush (r : Remote) (refSpecs : list string) (cred : string * string)
| PullRequestsCreate (title user repo_ head base : string)
| IssuesEdit (number : Z) (user repo_ assignee : string) (labels : list string).

(** What the trace records: requests, assignments to a push-outcome field
    of the element at a position of [elements], and console output.
    [console.log] and [console.error] print a string argument as it is;
    given another value, [console.error] prints how [util.inspect] renders
    that value, which is not its conversion to a string, so that the trace
    keeps the value itself. *)
Inductive Event :=
| Called (c : Call)
| Assigned (element : nat) (f : PushFlag)
| ConsoleLog (s : string)
| ConsoleError (s : string)
| ConsoleErrorValue (v : exn).

(** [console.error(err.stack || err)]: the stack when it is a string that
    is not empty, else the value [err] itself. *)
Definition console_error_stack_or_value (err : exn) : Event :=
  match stack err with
  | Some s => if decide (s = "") then ConsoleErrorValue err else ConsoleError s
  | None => ConsoleErrorValue err
  end.

(** The answer of a collaborator to an awaited request. *)
Inductive Reply (A : Type) :=
| Resolves (a : A)
| Rejects (e : exn).
Arguments Resolves {A} a.
Arguments Rejects {A} e.

(** The environment: the parsed command line, the token, and the oracles. *)
Record Env := mkEnv {
  max_changes : nat;
  GITHUB_TOKEN : string;
  error_stack : string -> string;
  localeCompare : string -> string -> Z;
  rimraf : list Event -> string -> Reply unit;
  mkdirSync : list Event -> string -> Reply unit;
  user_get : list Event -> Reply User;
  repos_get : list Event -> string -> string -> Reply Repo;
  repos_getFromOrg : list Event -> string -> nat -> nat -> Reply (list Repo);
  open_or_clone_all : list Event -> list Repo -> Reply (Repo -> Repository);
  analyze : list Event -> Reply unit;
  repo_getHeadCommit : list Event -> Repository -> Reply string;
  branch_create :
    list Event -> Repository -> string -> string -> bool -> Reply string;
  repo_checkoutBranch : list Event -> Repository -> string -> Reply unit;
  cleanup_passes : list Event -> ElementRepo -> bool * bool * option exn;
  repo_getRemote : list Event -> Repository -> string -> Reply Remote;
  remote_push : list Event -> Remote -> list string -> Reply Z;
  pullRequests_create :
    list Event -> string -> string -> string -> string -> string -> Reply Z;
  issues_edit :
    list Event -> Z -> string -> string -> string -> list string -> Reply unit
}.

(** The mutable state of a run.  The two counters are JavaScript numbers
    that only ever grow by one from zero; they stay far below 2^53, where
    such a number is an exact natural. *)
Record World := mkWorld {
  elementsPushed : nat;
  pushesDenied : nat;
  elements : list ElementRepo;
  trace : list Event
}.

Definition init_world : World := mkWorld 0 0 [] [].

(** ** The monad *)

Inductive Result (A : Type) :=
| Ok (a : A)
| Throw (e : exn)
| OutOfFuel.
Arguments Ok {A} a.
Arguments Throw {A} e.
Arguments OutOfFuel {A}.

Definition M (A : Type) : Type := World -> Result A * World.

Definition ret {A} (a : A) : M A := fun w => (Ok a, w).

Definition throw {A} (e : exn) : M A := fun w => (Throw e, w).

Definition bind {A B} (m : M A) (k : A -> M B) : M B :=
  fun w =>
    match m w with
    | (Ok a, w') => k a w'
    | (Throw e, w') => (Throw e, w')
    | (OutOfFuel, w') => (OutOfFuel, w')
    end.

(** [try { m } catch (e) { h e }] *)
Definition try_catch {A} (m : M A) (h : exn -> M A) : M A :=
  fun w =>
    match m w with
    | (Throw e, w') => h e w'
    | other => other
    end.

Declare Scope js_scope.
Delimit Scope js_scope with js.
Notation "'let*' x ':=' c1 'in' c2" := (bind c1 (fun x => c2))
  (at level 10, x name, c1 at level 100, c2 at level 200) : js_scope.
Notation "c1 ';;' c2" := (bind c1 (fun _ => c2))
  (at level 100, c2 at level 200, right associativity) : js_scope.
Local Open Scope js_scope.

Definition record (e : Event) (w : World) : World :=
  mkWorld (elementsPushed w) (pushesDenied w) (elements w) (trace w ++ [e]).

(** Awaiting a request: it is recorded, and the oracle, which sees the
    trace before the request, resolves or rejects it. *)
Definition await {A} (c : Call) (oracle : list Event -> Reply A) : M A :=
  fun w =>
    match oracle (trace w) with
    | Resolves a => (Ok a, record (Called c) w)
    | Rejects e => (Throw e, record (Called c) w)
    end.

(** Reading a property of the element at position [element].  Positions
    stand for object references; a position outside the array reads
    [undefined], and a property access on [undefined] is a TypeError. *)
Definition TypeError : exn := mkExn None "TypeError".

Definition get {A} (element : nat) (f : ElementRepo -> A) : M A :=
  fun w =>
    match elements w !! element with
    | Some e => (Ok (f e), w)
    | None => (Throw TypeError, w)
    end.

Definition set_flag (f : PushFlag) (e : ElementRepo) : ElementRepo :=
  match f with
  | Denied =>
      mkElement (repo e) (dir e) (ghRepo e) (analyzer e) (dirty e)
        (needsReview e) true (pushSucceeded e) (pushFailed e)
  | Succeeded =>
      mkElement (repo e) (dir e) (ghRepo e) (analyzer e) (dirty e)
        (needsReview e) (pushDenied e) true (pushFailed e)
  | Failed =>
      mkElement (repo e) (dir e) (ghRepo e) (analyzer e) (dirty e)
        (needsReview e) (pushDenied e) (pushSucceeded e) true
  end.

Definition update (element : nat) (g : ElementRepo -> ElementRepo) (w : World)
  : World :=
  mkWorld (elementsPushed w) (pushesDenied w)
    (alter g element (elements w)) (trace w).

(** [element.pushDenied = true] and its two siblings. *)
Definition assign (element : nat) (f : PushFlag) : M unit :=
  fun w =>
    match elements w !! element with
    | Some _ => (Ok tt, record (Assigned element f) (update element (set_flag f) w))
    | None => (Throw TypeError, w)
    end.

(** ** The push budget *)

Section Flow.

Context (env : Env).

(** [new Error(message)]: the engine captures the stack text. *)
Definition new_Error (message : string) : exn :=
  mkExn (Some (error_stack env message)) ("Error: " +:+ message).

Definition pushIsAllowed : M bool :=
  fun w =>
    if (elementsPushed w <? max_changes env)%nat then
      (Ok true,
       mkWorld (S (elementsPushed w)) (pushesDenied w) (elements w) (trace w))
    else
      (Ok false,
       mkWorld (elementsPushed w) (S (pushesDenied w)) (elements w) (trace w)).

(** [n] successive calls, with the values they return. *)
Fixpoint pushIsAllowed_calls (n : nat) (w : World) : list bool * World :=
  match n with
  | 0 => ([], w)
  | S n' =>
      match pushIsAllowed w with
      | (Ok b, w') =>
          let '(bs, w'') := pushIsAllowed_calls n' w' in (b :: bs, w'')
      | (_, w') => ([], w')
      end
  end.

(** ** Publishing *)

(** [pushBranch]: look up the remote [origin] and push one ref-spec with
    the token as a plain-text credential. *)
Definition pushBranch (element : nat) (localBranchName remoteBranchName : string)
  : M Z :=
  let* r := get element repo in
  let* remote := await (GetRemote r "origin")
                   (fun tr => repo_getRemote env tr r "origin") in
  let refSpecs :=
    ["refs/heads/" +:+ localBranchName +:+ ":refs/heads/" +:+ remoteBranchName]
  in
  await (RemotePush remote refSpecs (GITHUB_TOKEN env, "x-oauth-basic"))
    (fun tr => remote_push env tr remote refSpecs).

(** [createPullRequest]: wait on the delay chain, create the pull request,
    then edit it as an issue to set the assignee and the label. *)
Definition createPullRequest (element : nat) (head base assignee : string)
  : M unit :=
  let* user := get element (fun e => login (owner (ghRepo e))) in
  let* repo_ := get element (fun e => name (ghRepo e)) in
  await (RateLimit 5000) (fun _ => Resolves tt) ;;
  let* pr := await (PullRequestsCreate "Automatic cleanup!" user repo_ head base)
               (fun tr => pullRequests_create env tr
                            "Automatic cleanup!" user repo_ head base) in
  await (IssuesEdit pr user repo_ assignee ["autogenerated"])
    (fun tr => issues_edit env tr pr user repo_ assignee ["autogenerated"]).

(** The body of the [try] block of [pushChanges]. *)
Definition publish (element : nat) (localBranchName remoteBranchName
                                      assignee : string) : M unit :=
  pushBranch element localBranchName remoteBranchName ;;
  let* review := get element needsReview in
  if review then createPullRequest element localBranchName "master" assignee
  else ret tt.

Definition pushChanges (element : nat) (localBranchName assignee : string)
  : M unit :=
  let* d := get element dirty in
  if negb d then ret tt
  else
    let* allowed := pushIsAllowed in
    if negb allowed then assign element Denied
    else
      let* review := get element needsReview in
      let remoteBranchName := if review then localBranchName else "master" in
      try_catch (publish element localBranchName remoteBranchName assignee)
        (fun e => assign element Failed ;; throw e) ;;
      assign element Succeeded.

(** ** Discovery *)

Definition per_page : nat := 100.

(** The [while (true)] loop of [getRepos]; [fuel] bounds the number of
    pages requested. *)
Fixpoint fetch_pages (fuel page : nat) (repos : list Repo) : M (list Repo) :=
  match fuel with
  | 0 => fun w => (OutOfFuel, w)
  | S fuel' =>
      let* resultsPage :=
        await (ReposGetFromOrg "PolymerElements" per_page page)
          (fun tr => repos_getFromOrg env tr "PolymerElements" per_page page) in
      let repos := repos ++ resultsPage in
      if (length resultsPage <? per_page)%nat then ret repos
      else fetch_pages fuel' (S page) repos
  end.

End Flow.

(** The de-duplication loop of [getRepos]: [repoIds] is the set of names
    seen so far, [dedupedRepos] the array being pushed onto. *)
Fixpoint dedupe_loop (repos : list Repo) (repoIds : gset string)
    (dedupedRepos : list Repo) : list Repo :=
  match repos with
  | [] => dedupedRepos
  | r :: rest =>
      if decide (name r ∈ repoIds) then dedupe_loop rest repoIds dedupedRepos
      else dedupe_loop rest ({[name r]} ∪ repoIds) (dedupedRepos ++ [r])
  end.

Definition dedupe (repos : list Repo) : list Repo := dedupe_loop repos ∅ [].

(** The accumulated discovery list: the root repository, then the pages. *)
Definition discover (env : Env) (fuel : nat) : M (list Repo) :=
  let* r := await (ReposGet "Polymer" "polymer")
              (fun tr => repos_get env tr "Polymer" "polymer") in
  fetch_pages env fuel 0 [r].

Definition getRepos (env : Env) (fuel : nat) : M (list Repo) :=
  let* repos := discover env fuel in
  ret (dedupe repos).

(** ** The batch *)

Definition nl : string := String "010"%char "".

(** [path.join('repos', name)], for a name that is a single path segment
    (as GitHub repository names are). *)
Definition path_join (d n : string) : string := d +:+ "/" +:+ n.

(** The three non-empty groups of [reportOnChangesMade], as the lines it
    prints. *)
Definition group_lines (message : string) (group : list ElementRepo)
  : list string :=
  match group with
  | [] => []
  | _ => (nl +:+ message) :: map (fun e => "    " +:+ dir e) group
  end.

Definition report_lines (els : list ElementRepo) : list string :=
  let pushedElements := filter (fun e => pushSucceeded e = true) els in
  let failedElements := filter (fun e => pushFailed e = true) els in
  let deniedElements := filter (fun e => pushDenied e = true) els in
  group_lines "Elements that would have been pushed:" deniedElements
  ++ group_lines "Elements pushed successfully:" pushedElements
  ++ group_lines "Elements that I tried to push that FAILED:" failedElements.

Definition console_log (lines : list string) (w : World) : World :=
  mkWorld (elementsPushed w) (pushesDenied w) (elements w)
    (trace w ++ map ConsoleLog lines).

Definition reportOnChangesMade : M unit :=
  fun w => (Ok tt, console_log (report_lines (elements w)) w).

(** [elements.sort((l, r) => l.dir.localeCompare(r.dir))], as a stable
    insertion sort with the environment's collation. *)
Fixpoint insert_by_dir (cmp : string -> string -> Z) (x : ElementRepo)
    (l : list ElementRepo) : list ElementRepo :=
  match l with
  | [] => [x]
  | y :: l' =>
      if (cmp (dir x) (dir y) <=? 0)%Z then x :: l
      else y :: insert_by_dir cmp x l'
  end.

Definition sort_by_dir (cmp : string -> string -> Z) (l : list ElementRepo)
  : list ElementRepo :=
  foldr (insert_by_dir cmp) [] l.

Definition modify_elements (g : list ElementRepo -> list ElementRepo) : M unit :=
  fun w =>
    (Ok tt, mkWorld (elementsPushed w) (pushesDenied w) (g (elements w)) (trace w)).

Definition set_analyzer (e : ElementRepo) : ElementRepo :=
  mkElement (repo e) (dir e) (ghRepo e) true (dirty e) (needsReview e)
    (pushDenied e) (pushSucceeded e) (pushFailed e).

Definition set_changes (d r : bool) (e : ElementRepo) : ElementRepo :=
  mkElement (repo e) (dir e) (ghRepo e) (analyzer e) d r
    (pushDenied e) (pushSucceeded e) (pushFailed e).

Definition excludes : gset string :=
  list_to_set
    ["repos/style-guide"; "repos/test-all"; "repos/ContributionGuide";
     "repos/polymer"; "repos/paper-listbox"].

Definition branchName : string := "auto-cleanup".

Fixpoint for_each {A} (l : list A) (body : A -> M unit) : M unit :=
  match l with
  | [] => ret tt
  | x :: l' => body x ;; for_each l' body
  end.

Section Batch.

Context (env : Env).

Definition checkoutNewBranch (r : Repository) (branch : string) : M unit :=
  let* commit := await (GetHeadCommit r) (fun tr => repo_getHeadCommit env tr r) in
  let* b := await (BranchCreate r branch commit false)
              (fun tr => branch_create env tr r branch commit false) in
  await (CheckoutBranch r b) (fun tr => repo_checkoutBranch env tr r b).

(** Modelled from the spec: the cleanup-pass pipeline of [./cleanup], which
    is not among the sources.  It alone decides [dirty] and [needsReview]
    of the element it is given, and it may raise after doing so. *)
Definition cleanup (element : nat) : M unit :=
  fun w =>
    match elements w !! element with
    | Some e =>
        let '(d, r, err) := cleanup_passes env (trace w) e in
        let w' := record (Called (Cleanup (dir e)))
                    (update element (set_changes d r) w) in
        match err with
        | Some x => (Throw x, w')
        | None => (Ok tt, w')
        end
    | None => (Throw TypeError, w)
    end.

(** The promise chain of one element: new branch, a tick of the delay
    chain, the cleanup passes, the publish. *)
Definition chain (user : User) (element : nat) : M unit :=
  let* r := get element repo in
  checkoutNewBranch r branchName ;;
  await (RateLimit 0) (fun _ => Resolves tt) ;;
  cleanup element ;;
  pushChanges env element branchName (login user).

(** The error that the [.catch] of the chain raises in place of [err]. *)
Definition wrapped (d : string) (err : exn) : exn :=
  new_Error env ("Error updating " +:+ d +:+ ":" +:+ nl +:+ stack_or_string err).

(** The body of the transform-and-publish loop for one element. *)
Definition process (user : User) (element : nat) : M unit :=
  let* d := get element dir in
  if decide (d ∈ excludes) then ret tt
  else
    try_catch (chain user element)
      (fun err => let* d' := get element dir in throw (wrapped d' err)).

(** Everything [_main] does before the loop: reset the working directory,
    fetch the user, discover, clone, analyze, sort.  The concurrent clone
    phase is one request whose answer gives the repository handles. *)
Definition prepare (fuel : nat) : M User :=
  await (Rimraf "repos") (fun tr => rimraf env tr "repos") ;;
  await (MkdirSync "repos") (fun tr => mkdirSync env tr "repos") ;;
  let* user := await UserGet (user_get env) in
  let* ghRepos := getRepos env fuel in
  let* handle := await (OpenOrCloneAll ghRepos)
                   (fun tr => open_or_clone_all env tr ghRepos) in
  modify_elements (fun els =>
    els ++ map (fun gh =>
                  mkElement (handle gh) (path_join "repos" (name gh)) gh false
                    false false false false false) ghRepos) ;;
  await AnalyzeRepos (analyze env) ;;
  modify_elements (map set_analyzer) ;;
  modify_elements (sort_by_dir (localeCompare env)) ;;
  ret user.

(** The [for ... of] loop over [elements].  No turn of the loop adds or
    removes an element, so the positions visited are those present when the
    loop begins. *)
Definition transform_all (user : User) : M unit :=
  fun w => for_each (seq 0 (length (elements w))) (process user) w.

Definition summary (w : World) : string :=
  if decide (elementsPushed w = 0 ∧ pushesDenied w = 0) then "No changes needed!"
  else if decide (pushesDenied w = 0) then
    "Successfully pushed to " +:+ pretty (elementsPushed w) +:+ " repos."
  else if decide (max_changes env = 0) then
    pretty (pushesDenied w) +:+ " changes ready to push. "
    +:+ "Call with --max_changes=N to push them up!"
  else
    "Successfully pushed to " +:+ pretty (elementsPushed w) +:+ " repos. "
    +:+ pretty (pushesDenied w) +:+ " remain.".

Definition _main (fuel : nat) : M unit :=
  let* user := prepare fuel in
  transform_all user ;;
  reportOnChangesMade ;;
  fun w => (Ok tt, console_log [summary w] w).

(** How the process ends: [main] returns normally, or calls
    [process.exit(code)], or the model ran out of fuel. *)
Inductive Ending := Returned | Exited (code : Z) | Unfinished.

Definition main (fuel : nat) (w : World) : Ending * World :=
  match _main fuel w with
  | (Ok _, w') => (Returned, w')
  | (Throw err, w') =>
      let w1 := console_log (report_lines (elements w')) w' in
      let w2 := record (ConsoleError (nl +:+ nl)) w1 in
      let w3 := record (console_error_stack_or_value err) w2 in
      (Exited 1, w3)
  | (OutOfFuel, w') => (Unfinished, w')
  end.

End Batch.

(** ** The delay chain *)

(** [rateLimit] keeps one promise, [previousPromise], and chains every new
    delay after it.  None of these promises ever rejects, so a promise is
    represented by the time (in milliseconds) at which it resolves; the
    initial [Promise.resolve(null)] is resolved from the start.  A call
    made at time [now] registers a callback that runs once
    [previousPromise] has resolved, and not before the call itself; the
    callback arms [setTimeout(resolve, delay)], and the promise resolves
    when that timer fires, [elapsed] milliseconds later.  How long a timer
    takes is for Node to say: it arms the timer for [timeout delay], which
    is [delay] itself only within the range of the timers, and fires it no
    sooner than that ([timer_kept]).  A delay is a whole number of
    milliseconds, as the timer makes it. *)
Module RateGovernor.

Definition Promise := N.

(** The longest delay that a timer of Node keeps, [2^31 - 1]
    milliseconds. *)
Definition TIMEOUT_MAX : N := 2147483647.

(** The duration for which [setTimeout(callback, delay)] arms its timer:
    Node sets a delay that is not between 1 and [TIMEOUT_MAX] to 1. *)
Definition timeout (delay : N) : N :=
  if decide (1 ≤ delay ∧ delay ≤ TIMEOUT_MAX)%N then delay else 1%N.

Record Request := mkRequest {
  now : N;
  delay : N;
  elapsed : N
}.

(** What Node promises of the timer of a request: it fires no sooner than
    the duration it was armed for. *)
Definition timer_kept (q : Request) : Prop := (timeout (delay q) ≤ elapsed q)%N.

#[global] Instance timer_kept_dec (q : Request) : Decision (timer_kept q).
Proof. unfold timer_kept. apply _. Defined.

Definition initial : Promise := 0%N.

(** When the callback of [previousPromise.then] of this request runs. *)
Definition started (previousPromise : Promise) (q : Request) : N :=
  N.max previousPromise (now q).

(** [rateLimit(delay)]: the returned promise [curr], and the new value of
    [previousPromise]. *)
Definition rateLimit (q : Request) (previousPromise : Promise)
  : Promise * Promise :=
  let curr := (started previousPromise q + elapsed q)%N in
  (curr, curr).

(** A sequence of calls: for each one, when its delay started and when the
    promise it returned resolved. *)
Fixpoint calls (qs : list Request) (previousPromise : Promise)
  : list (N * Promise) :=
  match qs with
  | [] => []
  | q :: qs' =>
      let '(curr, previousPromise') := rateLimit q previousPromise in
      (started previousPromise q, curr) :: calls qs' previousPromise'
  end.

(** Calls that all ask for the same delay [d]; each comes with the time of
    the call and the time its timer took. *)
Definition equal_delay (d : N) (ts : list (N * N)) : list Request :=
  map (fun '(t, l) => mkRequest t d l) ts.


End RateGovernor.

(** ** Observations on a trace *)

Definition calls_of (tr : list Event) : list Call :=
  omap (fun ev => match ev with Called c => Some c | _ => None end) tr.

Definition pushed_refspecs (tr : list Event) : list (list string) :=
  omap (fun ev => match ev with
                  | Called (RemotePush _ specs _) => Some specs
                  | _ => None
                  end) tr.

(** Pull requests asked for: title, user, repository, head, base. *)
Definition pull_requests (tr : list Event)
  : list (string * string * string * string * string) :=
  omap (fun ev => match ev with
                  | Called (PullRequestsCreate t u r h b) => Some (t, u, r, h, b)
                  | _ => None
                  end) tr.

(** Issue edits asked for: number, user, repository, assignee, labels. *)
Definition issue_edits (tr : list Event)
  : list (Z * string * string * string * list string) :=
  omap (fun ev => match ev with
                  | Called (IssuesEdit n u r a ls) => Some (n, u, r, a, ls)
                  | _ => None
                  end) tr.

(** Assignments to a push-outcome field of the element at position [i]. *)
Definition assignments (i : nat) (tr : list Event) : list PushFlag :=
  omap (fun ev => match ev with
                  | Assigned j f => if decide (j = i) then Some f else None
                  | _ => None
                  end) tr.

(** How many of the three push-outcome fields of an element are set. *)
Definition outcomes_set (e : ElementRepo) : nat :=
  Nat.b2n (pushDenied e) + Nat.b2n (pushSucceeded e) + Nat.b2n (pushFailed e).

Definition count_where (p : ElementRepo -> bool) (els : list ElementRepo) : nat :=
  length (filter (fun e => p e = true) els).

(** A specification of the de-duplication loop: what it keeps of [repos] when the names in [seen]
    have been met already. *)
Fixpoint firsts (seen : gset string) (repos : list Repo) : list Repo :=
  match repos with
  | [] => []
  | r :: rest =>
      if decide (name r ∈ seen) then firsts seen rest
      else r :: firsts ({[name r]} ∪ seen) rest
  end.

(** ** A small scripted environment

    Used to run the flow on concrete inputs.  The organisation holds the
    repositories [org]; [changes] says, for a working directory, what the
    cleanup passes do there; [push] answers a push of given ref-specs and
    [pr] answers the creation of a pull request.  Everything else
    succeeds. *)

Definition compare_Z (a b : string) : Z :=
  match String.compare a b with
  | Eq => 0
  | Lt => -1
  | Gt => 1
  end%Z.

Definition polymer : Repo :=
  mkRepo (mkUser "Polymer") "polymer" "https://github.com/Polymer/polymer.git".

Definition element_repo (n : string) : Repo :=
  mkRepo (mkUser "PolymerElements") n
    ("https://github.com/PolymerElements/" +:+ n +:+ ".git").

Definition scripted (m : nat) (org : list Repo)
    (changes : string -> bool * bool * option exn)
    (push : list string -> Reply Z) (pr : Reply Z) : Env :=
  mkEnv m "token" (fun message => "Error: " +:+ message) compare_Z
    (fun _ _ => Resolves tt)
    (fun _ _ => Resolves tt)
    (fun _ => Resolves (mkUser "bot"))
    (fun _ _ _ => Resolves polymer)
    (fun _ _ pp page => Resolves (take pp (drop (page * pp) org)))
    (fun _ _ => Resolves (fun gh => path_join "repos" (name gh)))
    (fun _ => Resolves tt)
    (fun _ _ => Resolves "HEAD")
    (fun _ _ b _ _ => Resolves b)
    (fun _ _ _ => Resolves tt)
    (fun _ e => changes (dir e))
    (fun _ r remote => Resolves (r +:+ "#" +:+ remote))
    (fun _ _ specs => push specs)
    (fun _ _ _ _ _ _ => pr)
    (fun _ _ _ _ _ _ => Resolves tt).

Definition boom : exn := mkExn (Some "Error: boom") "Error: boom".

Definition all_dirty (review : bool) (d : string) : bool * bool * option exn :=
  (true, review, None).


Definition three : list Repo :=
  [element_repo "a"; element_repo "b"; element_repo "c"].

(** A world holding one cloned element. *)
Definition one_element (d review : bool) : World :=
  mkWorld 0 0
    [mkElement "repos/x" "repos/x" (element_repo "x") true d review
       false false false]
    [].

(** One dirty element, a budget of one, and a remote that refuses the
    push. *)
Definition push_refused : Env :=
  scripted 1 [element_repo "x"] (all_dirty false)
    (fun _ => Rejects boom) (Resolves 7%Z).

(** A dirty element that needs review, a remote that accepts the push,
    and a hosting service that refuses the pull request. *)
Definition pull_request_refused : Env :=
  scripted 1 [element_repo "x"] (all_dirty true)
    (fun _ => Resolves 0%Z) (Rejects boom).


(** A listing in which the last page repeats two repositories. *)
Definition repeating : Env :=
  scripted 0 (three ++ [element_repo "b"; element_repo "a"]) (all_dirty false)
    (fun _ => Resolves 0%Z) (Resolves 7%Z).

(** The default budget of zero, and a budget of one with a remote that
    accepts everything. *)
Definition dry_run : Env :=
  scripted 0 [element_repo "x"] (all_dirty false)
    (fun _ => Resolves 0%Z) (Resolves 7%Z).

Definition accepting : Env :=
  scripted 1 [element_repo "x"] (all_dirty true)
    (fun _ => Resolves 0%Z) (Resolves 7%Z).

(** ** Notions used in the statements *)

Definition refspec (localBranchName remoteBranchName : string) : list string :=
  ["refs/heads/" +:+ localBranchName +:+ ":refs/heads/" +:+ remoteBranchName].

(** The world in which [publish] starts once the budget has allowed it. *)
Definition consumed (w : World) : World :=
  mkWorld (S (elementsPushed w)) (pushesDenied w) (elements w) (trace w).

(** The push-outcome field that [pushChanges] assigns after [publish]. *)
Definition flag_of (r : Result unit) : PushFlag :=
  match r with
  | Ok _ => Succeeded
  | _ => Failed
  end.

Definition remote_branch (e : ElementRepo) (localBranchName : string) : string :=
  if needsReview e then localBranchName else "master".

Definition is_flag (f : PushFlag) (fl : option PushFlag) : bool :=
  match fl, f with
  | Some Denied, Denied | Some Succeeded, Succeeded | Some Failed, Failed => true
  | _, _ => false
  end.

(** [effect k fl w e w' e']: going from [w] to [w'] replaced the element
    [e] at position [k] by [e'], left every other element alone, assigned
    the push-outcome field [fl] of [e] (or none), and moved the budget
    counters accordingly. *)
Definition effect (k : nat) (fl : option PushFlag) (w : World) (e : ElementRepo)
    (w' : World) (e' : ElementRepo) : Prop :=
  elements w' = <[k:=e']> (elements w)
  ∧ dir e' = dir e
  ∧ pushDenied e' = pushDenied e || is_flag Denied fl
  ∧ pushSucceeded e' = pushSucceeded e || is_flag Succeeded fl
  ∧ pushFailed e' = pushFailed e || is_flag Failed fl
  ∧ elementsPushed w' =
      elementsPushed w + Nat.b2n (is_flag Succeeded fl || is_flag Failed fl)
  ∧ pushesDenied w' = pushesDenied w + Nat.b2n (is_flag Denied fl)
  ∧ ∃ evs, trace w' = trace w ++ evs
           ∧ ∀ j, assignments j evs =
                  if decide (j = k) then option_list fl else [].

(** The counters agree with the outcomes recorded on the elements. *)
Definition tally (w : World) : Prop :=
  elementsPushed w =
    count_where pushSucceeded (elements w) + count_where pushFailed (elements w)
  ∧ pushesDenied w = count_where pushDenied (elements w).

(** Every element carries as many outcomes as were assigned to it, at most
    one, and none from position [k] on. *)
Definition settled (k : nat) (w : World) : Prop :=
  ∀ i e, elements w !! i = Some e →
    outcomes_set e = length (assignments i (trace w))
    ∧ outcomes_set e ≤ 1
    ∧ (k ≤ i → outcomes_set e = 0).

Definition Inv (k : nat) (w : World) : Prop := tally w ∧ settled k w.

(** Nothing published yet: counters at zero, no outcome on any element, no
    assignment in the trace. *)
Definition pristine (w : World) : Prop :=
  elementsPushed w = 0
  ∧ pushesDenied w = 0
  ∧ Forall (fun e => outcomes_set e = 0) (elements w)
  ∧ ∀ i, assignments i (trace w) = [].

Definition keeps {A} (m : M A) : Prop :=
  ∀ w, pristine w → pristine (snd (m w)).


(** Three dirty elements that need no review, and a budget of one. *)
Definition budget_of_one : Env :=
  scripted 1 three (all_dirty false) (fun _ => Resolves 0%Z) (Resolves 7%Z).

(** ** The command line *)

(** The [type] function of the [max_changes] option.  An empty value is 0;
    a value matching [/^[0-9]+$/] is read by [parseInt(x, 10)]; anything
    else raises an [Error] whose message is returned on the right.  The
    number read is exact below 2^53. *)
Definition is_digit (c : ascii) : bool :=
  (48 <=? nat_of_ascii c) && (nat_of_ascii c <=? 57).

Fixpoint all_digits (s : string) : bool :=
  match s with
  | EmptyString => true
  | String c s' => is_digit c && all_digits s'
  end.

Fixpoint parseInt_digits (acc : nat) (s : string) : nat :=
  match s with
  | EmptyString => acc
  | String c s' => parseInt_digits (10 * acc + (nat_of_ascii c - 48)) s'
  end.

Definition max_changes_type (x : string) : nat + string :=
  if decide (x = "") then inl 0
  else if all_digits x then inl (parseInt_digits 0 x)
  else inr ("invalid max changes, expected an integer: " +:+ x).

(** ** More observations and invariants *)

(** The directories handed to the cleanup passes. *)
Definition cleanups (tr : list Event) : list string :=
  omap (fun ev => match ev with
                  | Called (Cleanup d) => Some d
                  | _ => None
                  end) tr.

(** The organisation pages asked for. *)
Definition pages_requested (tr : list Event) : list nat :=
  omap (fun ev => match ev with
                  | Called (ReposGetFromOrg _ _ page) => Some page
                  | _ => None
                  end) tr.

(** A line of the report that names a directory (the group headers begin
    with a line feed). *)
Definition is_directory_line (s : string) : bool := String.prefix "    " s.

(** Requests other than a push, a pull request or an issue edit. *)
Definition local_call (c : Call) : bool :=
  match c with
  | RemotePush _ _ _ | PullRequestsCreate _ _ _ _ _ | IssuesEdit _ _ _ _ _ => false
  | _ => true
  end.

Definition not_cleanup (c : Call) : bool :=
  match c with
  | Cleanup _ => false
  | _ => true
  end.

(** A computation that keeps a property of the world, however it ends. *)
Definition respects (P : World -> Prop) {A} (m : M A) : Prop :=
  forall w, P w -> P (snd (m w)).

(** The budget bounds what was published: no more edits than pull
    requests, no more pull requests than pushes, no more pushes than
    allowances, no more allowances than the maximum; and nothing was denied
    while an allowance was left. *)
Definition within_budget (env : Env) (w : World) : Prop :=
  elementsPushed w <= max_changes env
  /\ length (pushed_refspecs (trace w)) <= elementsPushed w
  /\ length (pull_requests (trace w)) <= length (pushed_refspecs (trace w))
  /\ length (issue_edits (trace w)) <= length (pull_requests (trace w))
  /\ (0 < pushesDenied w -> elementsPushed w = max_changes env).

(** No excluded directory was handed to the cleanup passes. *)
Definition spared (w : World) : Prop :=
  Forall (fun d => d ∉ excludes) (cleanups (trace w)).

(** The same, while the element at position [k] is one that is not
    excluded. *)
Definition spared_at (k : nat) (w : World) : Prop :=
  spared w /\ forall e, elements w !! k = Some e -> dir e ∉ excludes.

(** The requests for the [n] pages from [page] on. *)
Definition page_requests (page n : nat) : list Event :=
  map (fun i => Called (ReposGetFromOrg "PolymerElements" per_page i))
    (seq page n).


(** ** More scripted environments *)

(** An organisation of 150 repositories, listed in a page of 100 and a
    page of 50. *)
Fixpoint tally_name (n : nat) : string :=
  match n with
  | 0 => "e"
  | S n' => String "i"%char (tally_name n')
  end.

Definition large_org : list Repo :=
  (fun i => element_repo (tally_name i)) <$> seq 0 150.

Definition two_pages : Env :=
  scripted 0 large_org (all_dirty false) (fun _ => Resolves 0%Z) (Resolves 7%Z).

(** An environment with another answer to the organisation listing. *)
Definition with_listing (env : Env)
    (listing : nat -> Reply (list Repo)) : Env :=
  mkEnv (max_changes env) (GITHUB_TOKEN env) (error_stack env)
    (localeCompare env) (rimraf env) (mkdirSync env) (user_get env)
    (repos_get env) (fun _ _ _ page => listing page)
    (open_or_clone_all env) (analyze env) (repo_getHeadCommit env)
    (branch_create env) (repo_checkoutBranch env) (cleanup_passes env)
    (repo_getRemote env) (remote_push env) (pullRequests_create env)
    (issues_edit env).

(** The second page of the listing is refused. *)
Definition second_page_refused : Env :=
  with_listing two_pages
    (fun page => if decide (page = 1) then Rejects boom
                 else Resolves (take 100 (drop (page * 100) large_org))).

(** The very first page of the listing is refused, so the run fails before
    any element exists. *)
Definition listing_refused : Env :=
  with_listing budget_of_one (fun _ => Rejects boom).


(** * Properties *)

(** A run of the whole flow: three dirty elements and a budget of one give
    one element pushed, two denied, and the summary that says so. *)
Example run_budget_of_one :
  let '(ending, w') := main budget_of_one 5 init_world in
  ending = Returned
  ∧ count_where pushSucceeded (elements w') = 1
  ∧ count_where pushDenied (elements w') = 2
  ∧ count_where pushFailed (elements w') = 0
  ∧ last (trace w') = Some (ConsoleLog "Successfully pushed to 1 repos. 2 remain.").
Proof. vm_compute. by repeat split. Qed.

(** ** Push budget *)

Lemma pushIsAllowed_calls_from env n : ∀ p d els tr,
  pushIsAllowed_calls env n (mkWorld p d els tr) =
  (replicate (Nat.min n (max_changes env - p)) true
     ++ replicate (n - (max_changes env - p)) false,
   mkWorld (p + Nat.min n (max_changes env - p))
     (d + (n - (max_changes env - p))) els tr).
Proof.
  induction n as [|n IH]; intros p d els tr.
  - simpl. f_equal. f_equal; lia.
  - cbn [pushIsAllowed_calls]. unfold pushIsAllowed. cbn [elementsPushed pushesDenied elements trace].
    destruct (Nat.ltb_spec p (max_changes env)) as [Hlt|Hge].
    + rewrite IH.
      replace (max_changes env - p) with (S (max_changes env - S p)) by lia.
      cbn [Nat.min replicate app Nat.sub]. f_equal. f_equal; lia.
    + rewrite IH.
      replace (max_changes env - p) with 0 by lia.
      rewrite Nat.min_0_r, Nat.sub_0_r. cbn [replicate app]. f_equal. f_equal; lia.
Qed.

(** C1. With the counters at zero, as when the module is loaded, [n]
    successive calls of [pushIsAllowed] return [true] for the first
    [max_changes] of them and [false] for all the others; every call adds
    one to exactly one of the two counters, so that after [n] calls
    [elementsPushed + pushesDenied = n]. *)
Theorem pushIsAllowed_budget (env : Env) (n : nat) (els : list ElementRepo)
    (tr : list Event) :
  let m := max_changes env in
  let '(answers, w') := pushIsAllowed_calls env n (mkWorld 0 0 els tr) in
  answers = replicate (Nat.min n m) true ++ replicate (n - m) false
  ∧ length answers = n
  ∧ (∀ i b, answers !! i = Some b → b = true ↔ i < m)
  ∧ elementsPushed w' + pushesDenied w' = n
  ∧ (∀ w, let '(r, w1) := pushIsAllowed env w in
          elements w1 = elements w ∧ trace w1 = trace w
          ∧ ((r = Ok true ∧ elementsPushed w < m
              ∧ elementsPushed w1 = S (elementsPushed w)
              ∧ pushesDenied w1 = pushesDenied w)
             ∨ (r = Ok false ∧ m ≤ elementsPushed w
                ∧ elementsPushed w1 = elementsPushed w
                ∧ pushesDenied w1 = S (pushesDenied w)))).
Proof.
  intros m. rewrite pushIsAllowed_calls_from.
  rewrite Nat.sub_0_r. fold m. split; [done|]. split; [|split; [|split]].
  - rewrite length_app, !length_replicate. lia.
  - intros i b H. split.
    + intros ->. destruct (decide (i < m)) as [|Hge]; [done|].
      rewrite lookup_app_r in H by (rewrite length_replicate; lia).
      apply lookup_replicate in H as [? _]. done.
    + intros Hlt. destruct (decide (i < Nat.min n m)) as [Hi|Hi].
      * rewrite lookup_app_l in H by (rewrite length_replicate; lia).
        apply lookup_replicate in H as [? _]. done.
      * apply lookup_lt_Some in H.
        rewrite length_app, !length_replicate in H. lia.
  - cbn. lia.
  - intros w. unfold pushIsAllowed. fold m.
    destruct (Nat.ltb_spec (elementsPushed w) m); cbn; naive_solver.
Qed.

(** ** Publishing one element *)

Lemma calls_of_app tr1 tr2 : calls_of (tr1 ++ tr2) = calls_of tr1 ++ calls_of tr2.
Proof. apply omap_app. Qed.

Lemma lookup_alter_same (g : ElementRepo → ElementRepo) i (els : list ElementRepo) e :
  els !! i = Some e → alter g i els !! i = Some (g e).
Proof. intros H. rewrite list_lookup_alter_eq, H. done. Qed.

(** C3. On an element that is not dirty [pushChanges] returns at once and
    changes nothing: no push-outcome field is assigned, nothing is asked of
    any collaborator, and both budget counters keep their values. *)
Theorem pushChanges_not_dirty (env : Env) (w : World) (element : nat)
    (e : ElementRepo) (localBranchName assignee : string) :
  elements w !! element = Some e →
  dirty e = false →
  let '(r, w') := pushChanges env element localBranchName assignee w in
  r = Ok tt
  ∧ w' = w
  ∧ elements w' !! element = Some e
  ∧ assignments element (trace w') = assignments element (trace w)
  ∧ calls_of (trace w') = calls_of (trace w)
  ∧ elementsPushed w' = elementsPushed w
  ∧ pushesDenied w' = pushesDenied w.
Proof.
  intros Hel Hd. unfold pushChanges, bind, get. rewrite Hel, Hd. cbn.
  repeat split; done.
Qed.

(** C3, on a concrete element that the cleanup passes left unchanged. *)
Lemma pushChanges_not_dirty_witness :
  pushChanges accepting 0 "auto-cleanup" "bot" (one_element false true)
  = (Ok tt, one_element false true).
Proof.
  pose proof (pushChanges_not_dirty accepting (one_element false true) 0 _
                "auto-cleanup" "bot" eq_refl eq_refl) as H.
  destruct (pushChanges accepting 0 "auto-cleanup" "bot" (one_element false true))
    as [r w'].
  destruct H as (-> & -> & _). reflexivity.
Defined.

(** C2. On a dirty element that the budget denies, [pushChanges] assigns
    [pushDenied] and returns normally; the only thing it adds to the trace
    is that assignment, so no remote is looked up, nothing is pushed and no
    pull request is created. *)
Theorem pushChanges_denied (env : Env) (w : World) (element : nat)
    (e : ElementRepo) (localBranchName assignee : string) :
  elements w !! element = Some e →
  dirty e = true →
  fst (pushIsAllowed env w) = Ok false →
  let '(r, w') := pushChanges env element localBranchName assignee w in
  r = Ok tt
  ∧ trace w' = trace w ++ [Assigned element Denied]
  ∧ calls_of (trace w') = calls_of (trace w)
  ∧ elements w' !! element = Some (set_flag Denied e)
  ∧ pushDenied (set_flag Denied e) = true
  ∧ pushSucceeded (set_flag Denied e) = pushSucceeded e
  ∧ pushFailed (set_flag Denied e) = pushFailed e
  ∧ elementsPushed w' = elementsPushed w
  ∧ pushesDenied w' = S (pushesDenied w).
Proof.
  intros Hel Hd Hdeny. unfold pushChanges, bind, get. rewrite Hel, Hd. cbn.
  unfold pushIsAllowed in *.
  destruct (elementsPushed w <? max_changes env); [discriminate|]. cbn.
  unfold assign. cbn. rewrite Hel. cbn.
  rewrite calls_of_app, app_nil_r, (lookup_alter_same _ _ _ e Hel).
  repeat split; done.
Qed.

(** C2, on a concrete dirty element under the default budget of zero. *)
Lemma pushChanges_denied_witness :
  let '(r, w') := pushChanges dry_run 0 "auto-cleanup" "bot"
                    (one_element true false) in
  r = Ok tt
  ∧ calls_of (trace w') = []
  ∧ (pushDenied <$> elements w' !! 0) = Some true.
Proof.
  pose proof (pushChanges_denied dry_run (one_element true false) 0 _
                "auto-cleanup" "bot" eq_refl eq_refl eq_refl) as H.
  destruct (pushChanges dry_run 0 "auto-cleanup" "bot" (one_element true false))
    as [r w'].
  destruct H as (Hr & _ & Hcalls & Hel & _).
  split; [exact Hr|]. split; [exact Hcalls|]. rewrite Hel. reflexivity.
Defined.

Ltac run_step :=
  match goal with
  | |- context [match ?o with Resolves _ => _ | Rejects _ => _ end] =>
      destruct o eqn:?
  end.

(** What [publish] leaves behind: it touches neither the counters nor the
    elements, assigns no push-outcome field, and asks for at most one push
    and at most one pull request, with the arguments given here. *)
Lemma publish_run (env : Env) (w : World) (element : nat) (e : ElementRepo)
    (L R a : string) :
  elements w !! element = Some e →
  ∃ r evs,
    publish env element L R a w =
      (r, mkWorld (elementsPushed w) (pushesDenied w) (elements w) (trace w ++ evs))
    ∧ r ≠ OutOfFuel
    ∧ (∀ j, assignments j evs = [])
    ∧ (pushed_refspecs evs = [] ∨ pushed_refspecs evs = [refspec L R])
    ∧ (r = Ok tt → pushed_refspecs evs = [refspec L R])
    ∧ (needsReview e = false → pull_requests evs = [] ∧ issue_edits evs = [])
    ∧ (needsReview e = true →
       let pr := ("Automatic cleanup!", login (owner (ghRepo e)),
                  name (ghRepo e), L, "master") in
       (pull_requests evs = [] ∨ pull_requests evs = [pr])
       ∧ (r = Ok tt →
          pull_requests evs = [pr]
          ∧ ∃ tr n,
              pullRequests_create env tr "Automatic cleanup!"
                (login (owner (ghRepo e))) (name (ghRepo e)) L "master"
              = Resolves n
              ∧ issue_edits evs =
                  [(n, login (owner (ghRepo e)), name (ghRepo e), a,
                    ["autogenerated"])])).
Proof.
  intros Hel.
  unfold publish, pushBranch, createPullRequest, bind, get, await, ret, record.
  cbn. rewrite Hel. cbn.
  repeat first
    [ rewrite Hel
    | run_step
    | match goal with
      | |- context [if needsReview e then _ else _] =>
          destruct (needsReview e) eqn:?
      end
    | progress cbn ];
    rewrite <- ?app_assoc; cbn;
    (eexists _, _; split; [reflexivity|]);
    cbn; unfold refspec; naive_solver.
Qed.

(** [pushChanges] on a dirty element within budget: the budget is
    consumed, [publish] runs, and its result decides both the field that
    is assigned and how [pushChanges] ends. *)
Lemma pushChanges_allowed (env : Env) (w : World) (element : nat)
    (e : ElementRepo) (L a : string) :
  elements w !! element = Some e →
  dirty e = true →
  elementsPushed w < max_changes env →
  ∃ r0 evs,
    publish env element L (remote_branch e L) a (consumed w) =
      (r0, mkWorld (S (elementsPushed w)) (pushesDenied w) (elements w)
             (trace w ++ evs))
    ∧ r0 ≠ OutOfFuel
    ∧ pushChanges env element L a w =
        (r0, mkWorld (S (elementsPushed w)) (pushesDenied w)
               (alter (set_flag (flag_of r0)) element (elements w))
               (trace w ++ evs ++ [Assigned element (flag_of r0)])).
Proof.
  intros Hel Hd Hlt.
  destruct (publish_run env (consumed w) element e L (remote_branch e L) a Hel)
    as (r0 & evs & Hpub & Hfuel & _).
  exists r0, evs. cbn in Hpub. split; [done|]. split; [done|].
  unfold pushChanges, bind, get. rewrite Hel, Hd. cbn.
  unfold pushIsAllowed. apply Nat.ltb_lt in Hlt. rewrite Hlt. cbn.
  rewrite Hel. unfold try_catch. fold (consumed w).
  unfold remote_branch in Hpub. rewrite Hpub.
  destruct r0 as [[]|x|]; [| |done].
  - unfold assign. cbn. rewrite Hel. unfold record, update. cbn.
    by rewrite <- app_assoc.
  - unfold assign, bind, throw. cbn. rewrite Hel. unfold record, update. cbn.
    by rewrite <- app_assoc.
Qed.

Lemma pushed_refspecs_app tr1 tr2 :
  pushed_refspecs (tr1 ++ tr2) = pushed_refspecs tr1 ++ pushed_refspecs tr2.
Proof. apply omap_app. Qed.

Lemma pull_requests_app tr1 tr2 :
  pull_requests (tr1 ++ tr2) = pull_requests tr1 ++ pull_requests tr2.
Proof. apply omap_app. Qed.

Lemma issue_edits_app tr1 tr2 :
  issue_edits (tr1 ++ tr2) = issue_edits tr1 ++ issue_edits tr2.
Proof. apply omap_app. Qed.

Lemma assignments_app i tr1 tr2 :
  assignments i (tr1 ++ tr2) = assignments i tr1 ++ assignments i tr2.
Proof. apply omap_app. Qed.




(** ** The effect of processing one element *)

Lemma effect_refl k w e :
  elements w !! k = Some e → effect k None w e w e.
Proof.
  intros Hel. unfold effect. cbn. rewrite !orb_false_r, !Nat.add_0_r.
  rewrite list_insert_id by done. repeat split; try done.
  exists []. rewrite app_nil_r. split; [done|]. intros j. by case_decide.
Qed.

Lemma effect_trans k fl w e w1 e1 w2 e2 :
  effect k None w e w1 e1 → effect k fl w1 e1 w2 e2 → effect k fl w e w2 e2.
Proof.
  intros (Hels & Hdir & Hd & Hs & Hf & Hp & Hpd & evs & Htr & Has)
         (Hels' & Hdir' & Hd' & Hs' & Hf' & Hp' & Hpd' & evs' & Htr' & Has').
  cbn in *. rewrite !orb_false_r in *. rewrite !Nat.add_0_r in *.
  unfold effect. rewrite Hels', Hels, list_insert_insert_eq.
  repeat split; try congruence.
  exists (evs ++ evs'). rewrite Htr', Htr, app_assoc. split; [done|].
  intros j. rewrite assignments_app, Has, Has'. by case_decide.
Qed.

(** A step that only records requests. *)
Lemma effect_record k w e c :
  elements w !! k = Some e → effect k None w e (record (Called c) w) e.
Proof.
  intros Hel. unfold effect. cbn. rewrite !orb_false_r, !Nat.add_0_r.
  rewrite list_insert_id by done. repeat split; try done.
  exists [Called c]. split; [done|]. intros j. by case_decide.
Qed.

Lemma alter_insert (g : ElementRepo → ElementRepo) k (els : list ElementRepo) e :
  els !! k = Some e → alter g k els = <[k:=g e]> els.
Proof.
  intros Hel. apply list_eq. intros j.
  destruct (decide (j = k)) as [->|Hne].
  - rewrite list_lookup_alter_eq, Hel. cbn.
    rewrite list_lookup_insert_eq; [done|]. by eapply lookup_lt_Some.
  - rewrite list_lookup_alter_ne, list_lookup_insert_ne by done. done.
Qed.

Lemma effect_lookup k fl w e w' e' :
  elements w !! k = Some e → effect k fl w e w' e' → elements w' !! k = Some e'.
Proof.
  intros Hel (-> & _). apply list_lookup_insert_eq. by eapply lookup_lt_Some.
Qed.

(** Every way [pushChanges] can go, as an effect on its element. *)
Lemma pushChanges_effect (env : Env) (w : World) (k : nat) (e : ElementRepo)
    (L a : string) :
  elements w !! k = Some e →
  ∃ r w' e' fl,
    pushChanges env k L a w = (r, w')
    ∧ r ≠ OutOfFuel
    ∧ (r = Ok tt → is_flag Failed fl = false)
    ∧ effect k fl w e w' e'.
Proof.
  intros Hel. destruct (dirty e) eqn:Hd.
  - destruct (Nat.ltb_spec (elementsPushed w) (max_changes env)) as [Hlt|Hge].
    + destruct (pushChanges_allowed env w k e L a Hel Hd Hlt)
        as (r0 & evs & Hpub & Hfuel & Hrun).
      destruct (publish_run env (consumed w) k e L (remote_branch e L) a Hel)
        as (r0' & evs' & Hpub' & _ & Hquiet & _).
      rewrite Hpub in Hpub'. cbn in Hpub'. injection Hpub' as <- Hevs.
      apply app_inv_head in Hevs as <-.
      eexists r0, _, (set_flag (flag_of r0) e), (Some (flag_of r0)).
      split; [exact Hrun|]. split; [done|].
      split; [by destruct r0 as [[]|?|]|].
      unfold effect. cbn. rewrite (alter_insert _ _ _ e Hel).
      split; [done|].
      destruct r0 as [[]|x|]; cbn; rewrite ?orb_true_r, ?orb_false_r;
        (repeat split; try done; try lia);
        (eexists; split; [done|]); intros j;
        rewrite assignments_app, Hquiet; cbn; by repeat case_decide.
    + eexists (Ok tt), _, (set_flag Denied e), (Some Denied).
      unfold pushChanges, bind, get. rewrite Hel, Hd. cbn.
      unfold pushIsAllowed. apply Nat.ltb_ge in Hge. rewrite Hge. cbn.
      unfold assign. cbn. rewrite Hel. split; [done|]. split; [done|].
      split; [done|]. unfold effect. cbn. rewrite (alter_insert _ _ _ e Hel).
      rewrite ?orb_true_r, ?orb_false_r.
      repeat split; try done; try lia.
      eexists; split; [done|]. intros j. cbn. by repeat case_decide.
  - exists (Ok tt), w, e, None.
    unfold pushChanges, bind, get. rewrite Hel, Hd. cbn.
    split; [done|]. split; [done|]. split; [done|]. by apply effect_refl.
Qed.

Lemma cleanup_effect (env : Env) (w : World) (k : nat) (e : ElementRepo) :
  elements w !! k = Some e →
  ∃ r w' e',
    cleanup env k w = (r, w') ∧ r ≠ OutOfFuel ∧ effect k None w e w' e'.
Proof.
  intros Hel. unfold cleanup. rewrite Hel.
  destruct (cleanup_passes env (trace w) e) as [[d r] err].
  assert (effect k None w e
            (record (Called (Cleanup (dir e))) (update k (set_changes d r) w))
            (set_changes d r e)) as Heff.
  { unfold effect. cbn. rewrite (alter_insert _ _ _ e Hel).
    rewrite !orb_false_r, !Nat.add_0_r. repeat split; try done.
    exists [Called (Cleanup (dir e))]. split; [done|].
    intros j. by case_decide. }
  destruct err; eexists _, _, _; (split; [done|]); split; done.
Qed.

Lemma checkoutNewBranch_effect (env : Env) (w : World) (k : nat)
    (e : ElementRepo) (r : Repository) (b : string) :
  elements w !! k = Some e →
  ∃ res w',
    checkoutNewBranch env r b w = (res, w')
    ∧ res ≠ OutOfFuel ∧ effect k None w e w' e.
Proof.
  intros Hel. unfold checkoutNewBranch, bind, await.
  repeat first [run_step | progress cbn];
    (eexists _, _; split; [done|]); (split; [done|]);
    repeat first
      [ by apply effect_refl
      | by apply effect_record
      | eapply effect_trans; [|by apply effect_record] ].
Qed.

(** The chain of one element changes that element only, assigns at most
    one push-outcome field, and never exhausts the fuel. *)
Lemma chain_effect (env : Env) (user : User) (w : World) (k : nat)
    (e : ElementRepo) :
  elements w !! k = Some e →
  ∃ r w' e' fl,
    chain env user k w = (r, w')
    ∧ r ≠ OutOfFuel
    ∧ (r = Ok tt → is_flag Failed fl = false)
    ∧ effect k fl w e w' e'.
Proof.
  intros Hel. unfold chain, bind at 1, get. rewrite Hel.
  destruct (checkoutNewBranch_effect env w k e (repo e) branchName Hel)
    as (r1 & w1 & Hrun1 & Hfuel1 & Heff1).
  unfold bind at 1. rewrite Hrun1.
  destruct r1 as [[]|x|]; [| |done]; cycle 1.
  { by exists (Throw x), w1, e, None. }
  pose proof (effect_lookup _ _ _ _ _ _ Hel Heff1) as Hel1.
  unfold bind at 1, await. cbn.
  pose proof (effect_record k w1 e (RateLimit 0) Hel1) as Heff2.
  set (w2 := record (Called (RateLimit 0)) w1) in *.
  pose proof (effect_lookup _ _ _ _ _ _ Hel1 Heff2) as Hel2.
  destruct (cleanup_effect env w2 k e Hel2) as (r3 & w3 & e3 & Hrun3 & Hfuel3 & Heff3).
  unfold bind. rewrite Hrun3.
  pose proof (effect_trans _ _ _ _ _ _ _ _ Heff1
                (effect_trans _ _ _ _ _ _ _ _ Heff2 Heff3)) as Heff13.
  destruct r3 as [[]|x|]; [| |done]; cycle 1.
  { by exists (Throw x), w3, e3, None. }
  pose proof (effect_lookup _ _ _ _ _ _ Hel2 Heff3) as Hel3.
  destruct (pushChanges_effect env w3 k e3 branchName (login user) Hel3)
    as (r4 & w4 & e4 & fl & Hrun4 & Hfuel4 & Hfail4 & Heff4).
  exists r4, w4, e4, fl. split; [done|]. split; [done|]. split; [done|].
  by eapply effect_trans.
Qed.

(** One turn of the loop: either it ends normally, or it raises the
    wrapped error that names the directory of its element. *)
Lemma process_effect (env : Env) (user : User) (w : World) (k : nat)
    (e : ElementRepo) :
  elements w !! k = Some e →
  ∃ r w' e' fl,
    process env user k w = (r, w')
    ∧ effect k fl w e w' e'
    ∧ (r = Ok tt → is_flag Failed fl = false)
    ∧ (r = Ok tt ∨ ∃ cause, r = Throw (wrapped env (dir e) cause)).
Proof.
  intros Hel. unfold process, bind at 1, get. rewrite Hel.
  case_decide.
  - exists (Ok tt), w, e, None. split; [done|]. split; [by apply effect_refl|].
    split; [done|]. by left.
  - destruct (chain_effect env user w k e Hel)
      as (r & w' & e' & fl & Hrun & Hfuel & Hfail & Heff).
    unfold try_catch. rewrite Hrun.
    destruct r as [[]|x|]; [| |done].
    + exists (Ok tt), w', e', fl. split; [done|]. split; [done|].
      split; [done|]. by left.
    + pose proof (effect_lookup _ _ _ _ _ _ Hel Heff) as Hel'.
      unfold bind, get, throw. rewrite Hel'.
      destruct Heff as (Hels & Hdir & Hrest). rewrite Hdir.
      eexists _, w', e', fl. split; [done|].
      split; [by split|]. split; [done|]. right. by exists x.
Qed.

(** ** Invariants of the loop *)

Lemma Inv_mono k k' w : k ≤ k' → Inv k w → Inv k' w.
Proof.
  intros Hle [Ht Hs]. split; [done|]. intros i e Hel.
  destruct (Hs i e Hel) as (? & ? & Hz). repeat split; try done.
  intros ?. apply Hz. lia.
Qed.

Lemma count_where_cons p e els :
  count_where p (e :: els) = Nat.b2n (p e) + count_where p els.
Proof.
  unfold count_where. rewrite filter_cons.
  destruct (p e); case_decide; cbn; congruence.
Qed.

Lemma count_where_insert p k (els : list ElementRepo) e e' :
  els !! k = Some e →
  count_where p (<[k:=e']> els) + Nat.b2n (p e)
  = count_where p els + Nat.b2n (p e').
Proof.
  revert k. induction els as [|x els IH]; intros k Hel; [done|].
  destruct k as [|k].
  - change (<[0:=e']> (x :: els)) with (e' :: els).
    injection Hel as ->. rewrite !count_where_cons. lia.
  - change (<[S k:=e']> (x :: els)) with (x :: <[k:=e']> els).
    rewrite !count_where_cons. specialize (IH k Hel). lia.
Qed.

Lemma outcomes_set_zero e :
  outcomes_set e = 0 →
  pushDenied e = false ∧ pushSucceeded e = false ∧ pushFailed e = false.
Proof.
  unfold outcomes_set.
  destruct (pushDenied e), (pushSucceeded e), (pushFailed e); cbn; naive_solver lia.
Qed.

(** A turn on the element at position [k] re-establishes the invariant
    one position further on. *)
Lemma effect_Inv k fl w e w' e' :
  Inv k w → elements w !! k = Some e → effect k fl w e w' e' →
  Inv (S k) w'
  ∧ count_where pushFailed (elements w')
    = count_where pushFailed (elements w) + Nat.b2n (is_flag Failed fl).
Proof.
  intros [[Hp Hd] Hs] Hel
    (Hels & _ & Hd' & Hs' & Hf' & Hp' & Hpd' & evs & Htr & Has).
  destruct (Hs k e Hel) as (Hlen & _ & Hzero).
  specialize (Hzero (le_n k)). rewrite Hzero in Hlen.
  destruct (outcomes_set_zero e Hzero) as (Ed & Es & Ef).
  rewrite Ed, Es, Ef in *. cbn in Hd', Hs', Hf'.
  pose proof (count_where_insert pushDenied k _ e e' Hel) as Cd.
  pose proof (count_where_insert pushSucceeded k _ e e' Hel) as Cs.
  pose proof (count_where_insert pushFailed k _ e e' Hel) as Cf.
  rewrite <- Hels in Cd, Cs, Cf.
  rewrite Ed, Hd' in Cd. rewrite Es, Hs' in Cs. rewrite Ef, Hf' in Cf.
  split; [split; [split|]|].
  - rewrite Hp'. destruct fl as [[]|]; cbn in *; lia.
  - rewrite Hpd'. destruct fl as [[]|]; cbn in *; lia.
  - intros i x Hx. rewrite Htr, assignments_app, length_app, Has.
    destruct (decide (i = k)) as [->|Hne].
    + rewrite Hels in Hx.
      rewrite list_lookup_insert_eq in Hx by (by eapply lookup_lt_Some).
      injection Hx as <-. rewrite <- Hlen. unfold outcomes_set.
      rewrite Hd', Hs', Hf'. destruct fl as [[]|]; cbn; repeat split; lia.
    + rewrite Hels, list_lookup_insert_ne in Hx by done.
      destruct (Hs i x Hx) as (Hl & Hle & Hz). cbn. rewrite Nat.add_0_r.
      repeat split; try done. intros ?. apply Hz. lia.
  - destruct fl as [[]|]; cbn in *; lia.
Qed.


(** The loop over the positions [k, k + m): it never exhausts the fuel,
    keeps the invariant, leaves alone every element outside its range, and
    as long as it has not raised no element is marked failed. *)
Lemma loop_Inv (env : Env) (user : User) (m : nat) : ∀ k w,
  Inv k w → k + m ≤ length (elements w) →
  ∃ r w',
    for_each (seq k m) (process env user) w = (r, w')
    ∧ r ≠ OutOfFuel
    ∧ length (elements w') = length (elements w)
    ∧ Inv (length (elements w')) w'
    ∧ (r = Ok tt →
       Inv (k + m) w'
       ∧ count_where pushFailed (elements w')
         = count_where pushFailed (elements w))
    ∧ (∀ j, j < k ∨ k + m ≤ j → elements w' !! j = elements w !! j).
Proof.
  induction m as [|m IH]; intros k w HI Hlen.
  - exists (Ok tt), w. cbn. rewrite Nat.add_0_r in *.
    split; [done|]. split; [done|]. split; [done|].
    split; [by eapply Inv_mono|]. by split.
  - destruct (lookup_lt_is_Some_2 (elements w) k) as [e Hel]; [lia|].
    destruct (process_effect env user w k e Hel)
      as (r1 & w1 & e1 & fl & Hrun & Heff & Hfail & Hres).
    destruct (effect_Inv _ _ _ _ _ _ HI Hel Heff) as [HI1 Hcount].
    assert (length (elements w1) = length (elements w)) as Hlen1.
    { destruct Heff as (-> & _). apply length_insert. }
    assert (∀ j, j ≠ k → elements w1 !! j = elements w !! j) as Hframe.
    { intros j Hj. destruct Heff as (-> & _). by apply list_lookup_insert_ne. }
    cbn [seq for_each]. unfold bind at 1. rewrite Hrun.
    destruct Hres as [->|[cause ->]].
    + destruct (IH (S k) w1 HI1) as (r & w' & Hloop & Hfuel & Hl & HIl & Hok & Hfr);
        [lia|].
      exists r, w'. split; [done|]. split; [done|]. split; [congruence|].
      split; [done|]. split.
      * intros Hr. destruct (Hok Hr) as [HIk Hc].
        rewrite <- Nat.add_succ_comm. split; [done|].
        rewrite Hc, Hcount, (Hfail eq_refl). cbn. lia.
      * intros j Hj. rewrite Hfr by lia. apply Hframe. lia.
    + eexists _, w1. split; [done|]. split; [done|]. split; [done|].
      split; [|split; [done|]].
      * eapply Inv_mono; [|done]. lia.
      * intros j Hj. apply Hframe. lia.
Qed.

(** ** From the start of a run to the loop *)

Lemma keeps_ret {A} (a : A) : keeps (ret a).
Proof. by intros w Hw. Qed.

Lemma keeps_bind {A B} (m : M A) (k : A → M B) :
  keeps m → (∀ a, keeps (k a)) → keeps (bind m k).
Proof.
  intros Hm Hk w Hw. specialize (Hm w Hw). unfold bind.
  destruct (m w) as [[a|x|] w1]; cbn in *; [by apply Hk|done..].
Qed.

Lemma keeps_await {A} c (oracle : list Event → Reply A) : keeps (await c oracle).
Proof.
  intros w (Hp & Hd & Hall & Has). unfold await.
  destruct (oracle (trace w)); unfold record;
    cbn [snd trace elements elementsPushed pushesDenied];
    (repeat split; try done); intros i; cbn [trace];
    by rewrite assignments_app, Has.
Qed.

Lemma keeps_modify_elements g :
  (∀ l, Forall (fun e => outcomes_set e = 0) l
        → Forall (fun e => outcomes_set e = 0) (g l)) →
  keeps (modify_elements g).
Proof.
  intros Hg w (Hp & Hd & Hall & Has). unfold pristine. cbn.
  split; [done|]. split; [done|]. split; [by apply Hg|done].
Qed.

Lemma keeps_fetch_pages env fuel : ∀ page repos,
  keeps (fetch_pages env fuel page repos).
Proof.
  induction fuel as [|fuel IH]; intros page repos; [by intros w Hw|].
  cbn [fetch_pages]. apply keeps_bind; [apply keeps_await|]. intros resultsPage.
  destruct (length resultsPage <? per_page); [apply keeps_ret|apply IH].
Qed.

Lemma keeps_getRepos env fuel : keeps (getRepos env fuel).
Proof.
  unfold getRepos, discover.
  repeat first
    [ apply keeps_await | apply keeps_fetch_pages | apply keeps_ret
    | apply keeps_bind; [|intros ?] ].
Qed.

Lemma Forall_insert_by_dir (P : ElementRepo → Prop) cmp x l :
  P x → Forall P l → Forall P (insert_by_dir cmp x l).
Proof.
  intros Hx. induction 1 as [|y l Hy Hl IH]; cbn; [by constructor|].
  destruct (cmp (dir x) (dir y) <=? 0)%Z; repeat constructor; done.
Qed.

Lemma Forall_sort_by_dir (P : ElementRepo → Prop) cmp l :
  Forall P l → Forall P (sort_by_dir cmp l).
Proof.
  induction 1; cbn; [constructor|]. by apply Forall_insert_by_dir.
Qed.

Lemma keeps_prepare env fuel : keeps (prepare env fuel).
Proof.
  unfold prepare.
  repeat first
    [ apply keeps_await | apply keeps_getRepos | apply keeps_ret
    | apply keeps_bind; [|intros ?] ].
  - apply keeps_modify_elements. intros l Hl. apply Forall_app. split; [done|].
    apply Forall_forall. intros e [gh [-> _]]%list_elem_of_fmap. done.
  - apply keeps_modify_elements. intros l Hl.
    apply Forall_fmap. eapply Forall_impl; [done|]. by intros [].
  - apply keeps_modify_elements. intros l. apply Forall_sort_by_dir.
Qed.

Lemma count_where_none p (els : list ElementRepo) :
  Forall (fun e => p e = false) els → count_where p els = 0.
Proof.
  induction 1 as [|e els He _ IH]; [done|].
  by rewrite count_where_cons, He, IH.
Qed.

Lemma pristine_counts w p :
  pristine w →
  (∀ e, outcomes_set e = 0 → p e = false) →
  count_where p (elements w) = 0.
Proof.
  intros (_ & _ & Hall & _) Hp. apply count_where_none.
  eapply Forall_impl; [done|]. done.
Qed.

Lemma pristine_Inv w : pristine w → Inv 0 w.
Proof.
  intros Hw.
  assert (count_where pushDenied (elements w) = 0) as Cd.
  { apply pristine_counts; [done|]. intros e He.
    by destruct (outcomes_set_zero e He) as (? & ? & ?). }
  assert (count_where pushSucceeded (elements w) = 0) as Cs.
  { apply pristine_counts; [done|]. intros e He.
    by destruct (outcomes_set_zero e He) as (? & ? & ?). }
  assert (count_where pushFailed (elements w) = 0) as Cf.
  { apply pristine_counts; [done|]. intros e He.
    by destruct (outcomes_set_zero e He) as (? & ? & ?). }
  destruct Hw as (Hp & Hd & Hall & Has). split; [split|].
  - by rewrite Hp, Cs, Cf.
  - by rewrite Hd, Cd.
  - intros i e Hel. rewrite Has.
    assert (outcomes_set e = 0) as ->; [|cbn; repeat split; lia].
    by eapply (proj1 (Forall_lookup _ _) Hall).
Qed.

Lemma pristine_init : pristine init_world.
Proof. unfold pristine. cbn. by repeat split. Qed.

Lemma assignments_console i lines : assignments i (map ConsoleLog lines) = [].
Proof. by induction lines. Qed.

(** Console output changes neither counters nor elements nor assignments. *)
Lemma Inv_console_log k lines w : Inv k w → Inv k (console_log lines w).
Proof.
  intros [Ht Hs]. split; [done|]. intros i e Hel.
  unfold console_log in *. cbn [trace elements] in *.
  rewrite assignments_app, assignments_console, app_nil_r. by apply Hs.
Qed.

Lemma Inv_console_error k s w : Inv k w → Inv k (record (ConsoleError s) w).
Proof.
  intros [Ht Hs]. split; [done|]. intros i e Hel.
  unfold record in *. cbn [trace elements] in *.
  rewrite assignments_app, app_nil_r. by apply Hs.
Qed.

(** What [console.error(err.stack || err)] prints is one line of console
    output, either a string or a value. *)
Lemma console_error_stack_or_value_cases (x : exn) :
  (∃ s, stack x = Some s ∧ s ≠ ""
        ∧ console_error_stack_or_value x = ConsoleError s)
  ∨ ((stack x = None ∨ stack x = Some "")
     ∧ console_error_stack_or_value x = ConsoleErrorValue x).
Proof.
  unfold console_error_stack_or_value.
  destruct (stack x) as [s|]; [|by right; split; [left|]].
  case_decide as Hs; [subst s; by right; split; [right|]|].
  left. by exists s.
Qed.

Lemma Inv_console_error_value k x w :
  Inv k w → Inv k (record (console_error_stack_or_value x) w).
Proof.
  destruct (console_error_stack_or_value_cases x)
    as [(s & _ & _ & ->)|[_ ->]]; [apply Inv_console_error|].
  intros [Ht Hs]. split; [done|]. intros i e Hel.
  unfold record in *. cbn [trace elements] in *.
  rewrite assignments_app, app_nil_r. by apply Hs.
Qed.

(** [_main] from the start of a run: where it ends, the invariant holds
    for every element, and if it ended normally no element is marked
    failed. *)
Lemma _main_Inv (env : Env) (fuel : nat) :
  ∃ r w',
    _main env fuel init_world = (r, w')
    ∧ Inv (length (elements w')) w'
    ∧ (r = Ok tt → count_where pushFailed (elements w') = 0).
Proof.
  pose proof (keeps_prepare env fuel init_world pristine_init) as Hprep.
  unfold _main, bind at 1.
  destruct (prepare env fuel init_world) as [[user|x|] w] eqn:Hrun; cbn in Hprep.
  - destruct (loop_Inv env user (length (elements w)) 0 w (pristine_Inv w Hprep))
      as (r & w' & Hloop & Hfuel & Hlen & HI & Hok & _); [done|].
    unfold bind at 1, transform_all. rewrite Hloop.
    destruct r as [[]|x|]; [| |done].
    + unfold bind, reportOnChangesMade.
      eexists _, _. split; [reflexivity|]. split.
      * apply Inv_console_log, Inv_console_log. exact HI.
      * intros _. change (count_where pushFailed (elements w') = 0).
        destruct (Hok eq_refl) as [_ ->].
        apply pristine_counts; [done|]. intros e He.
        by destruct (outcomes_set_zero e He) as (? & ? & ?).
    + by exists (Throw x), w'.
  - exists (Throw x), w. split; [done|]. split; [|done].
    eapply Inv_mono; [|by apply pristine_Inv]. lia.
  - exists OutOfFuel, w. split; [done|]. split; [|done].
    eapply Inv_mono; [|by apply pristine_Inv]. lia.
Qed.

Lemma main_Inv (env : Env) (fuel : nat) :
  let w' := snd (main env fuel init_world) in
  Inv (length (elements w')) w'.
Proof.
  destruct (_main_Inv env fuel) as (r & w1 & Hrun & HI & _).
  unfold main. rewrite Hrun. destruct r as [[]|x|]; cbn [snd]; [done| |done].
  apply Inv_console_error_value, Inv_console_error, Inv_console_log. exact HI.
Qed.

Lemma allowed_lt (env : Env) (w : World) :
  fst (pushIsAllowed env w) = Ok true → elementsPushed w < max_changes env.
Proof.
  unfold pushIsAllowed.
  destruct (Nat.ltb_spec (elementsPushed w) (max_changes env)); [done|].
  discriminate.
Qed.

(** C5. On a dirty element within budget, [pushChanges] ends exactly as
    the push and pull-request steps ended: if they raised, it assigns
    [pushFailed] and raises the same error; otherwise it assigns
    [pushSucceeded] and returns.  That is its only assignment to a
    push-outcome field, so an element that had no outcome has exactly one
    afterwards.  Over a whole run, every element ends with at most one of
    [pushDenied], [pushSucceeded], [pushFailed] set, and at most one
    assignment to these fields was ever made on it. *)
Theorem pushChanges_outcome (env : Env) :
  (∀ w element e localBranchName assignee,
     elements w !! element = Some e →
     dirty e = true →
     fst (pushIsAllowed env w) = Ok true →
     let steps :=
       fst (publish env element localBranchName
              (remote_branch e localBranchName) assignee (consumed w)) in
     let '(r, w') := pushChanges env element localBranchName assignee w in
     r = steps
     ∧ (steps = Ok tt ∨ ∃ x, steps = Throw x)
     ∧ elements w' !! element = Some (set_flag (flag_of steps) e)
     ∧ (∀ x, steps = Throw x → pushFailed (set_flag (flag_of steps) e) = true)
     ∧ (steps = Ok tt → pushSucceeded (set_flag (flag_of steps) e) = true)
     ∧ (∃ evs, trace w' = trace w ++ evs
               ∧ assignments element evs = [flag_of steps])
     ∧ (outcomes_set e = 0 → outcomes_set (set_flag (flag_of steps) e) = 1))
  ∧ (∀ fuel,
       let w' := snd (main env fuel init_world) in
       ∀ i e, elements w' !! i = Some e →
         outcomes_set e ≤ 1 ∧ length (assignments i (trace w')) ≤ 1).
Proof.
  split.
  - intros w element e L a Hel Hd Hallow steps.
    apply allowed_lt in Hallow.
    destruct (pushChanges_allowed env w element e L a Hel Hd Hallow)
      as (r0 & evs & Hpub & Hfuel & ->).
    destruct (publish_run env (consumed w) element e L (remote_branch e L) a Hel)
      as (r0' & evs' & Hpub' & _ & Hquiet & _).
    subst steps. rewrite Hpub in Hpub' |- *. cbn in Hpub'.
    injection Hpub' as <- Hevs. apply app_inv_head in Hevs as <-.
    cbn [fst elements trace]. split; [done|].
    split; [destruct r0 as [[]|x|]; [by left|right; by exists x|done]|].
    split; [by apply lookup_alter_same|].
    split; [intros x ->; done|]. split; [intros ->; done|].
    split.
    + exists (evs ++ [Assigned element (flag_of r0)]). split; [done|].
      rewrite assignments_app, Hquiet. cbn. by case_decide.
    + intros Hz. destruct (outcomes_set_zero e Hz) as (Ed & Es & Ef).
      unfold outcomes_set. destruct (flag_of r0); cbn; rewrite ?Ed, ?Es, ?Ef; done.
  - intros fuel w' i e Hel.
    destruct (main_Inv env fuel) as [_ Hs].
    destruct (Hs i e Hel) as (Hlen & Hle & _). fold w' in Hlen. lia.
Qed.

(** C5, on a concrete run: a dirty element that needs no review, a budget
    of one, and a remote that accepts the push. *)
Lemma pushChanges_outcome_witness :
  let env := scripted 1 [] (all_dirty false) (fun _ => Resolves 0%Z) (Resolves 7%Z) in
  let w := one_element true false in
  let '(r, w') := pushChanges env 0 "auto-cleanup" "bot" w in
  r = Ok tt ∧ (pushSucceeded <$> elements w' !! 0) = Some true.
Proof.
  pose proof (proj1 (pushChanges_outcome
    (scripted 1 [] (all_dirty false) (fun _ => Resolves 0%Z) (Resolves 7%Z)))
    (one_element true false) 0 _ "auto-cleanup" "bot"
    eq_refl eq_refl eq_refl) as H.
  vm_compute in H. vm_compute. destruct H as (H1 & _ & H2 & _).
  split; [exact H1|]. reflexivity.
Defined.

(** ** What the budget counts *)

(** C6, refuted as stated: one dirty element, a budget of one, the push is
    refused.  The run ends with [elementsPushed = 1] while no element is
    marked succeeded. *)
Lemma elementsPushed_counts_failed_publish :
  let w' := snd (main push_refused 5 init_world) in
  elementsPushed w' = 1
  ∧ count_where pushSucceeded (elements w') = 0
  ∧ count_where pushFailed (elements w') = 1
  ∧ elementsPushed w' ≠ count_where pushSucceeded (elements w').
Proof. vm_compute. repeat split; discriminate. Qed.

(** C6, amended.  [elementsPushed] counts the publishes that the budget
    allowed.  At the end of a run, and after any number of turns of the
    loop, it is the number of elements marked succeeded plus the number
    marked failed, and [pushesDenied] is the number marked denied; on a
    run that returns normally nothing is marked failed, and it is the
    number of elements marked succeeded. *)
Theorem elementsPushed_counts_allowed_publishes (env : Env) (fuel : nat) :
  (let '(ending, w') := main env fuel init_world in
   elementsPushed w' =
     count_where pushSucceeded (elements w') + count_where pushFailed (elements w')
   ∧ pushesDenied w' = count_where pushDenied (elements w')
   ∧ (ending = Returned →
      elementsPushed w' = count_where pushSucceeded (elements w')))
  ∧ (∀ user w k,
       prepare env fuel init_world = (Ok user, w) →
       k ≤ length (elements w) →
       let w' := snd (for_each (seq 0 k) (process env user) w) in
       elementsPushed w' =
         count_where pushSucceeded (elements w')
         + count_where pushFailed (elements w')
       ∧ pushesDenied w' = count_where pushDenied (elements w')).
Proof.
  split.
  - pose proof (main_Inv env fuel) as [[Hp Hd] _].
    destruct (_main_Inv env fuel) as (r & w1 & Hrun & _ & Hok).
    unfold main in *. rewrite Hrun in *.
    destruct r as [[]|x|]; cbn [snd] in Hp, Hd; (split; [done|]);
      (split; [done|]); [|done..].
    intros _. rewrite Hp, (Hok eq_refl). lia.
  - intros user w k Hprep Hk w'.
    pose proof (keeps_prepare env fuel init_world pristine_init) as Hw.
    rewrite Hprep in Hw. cbn in Hw.
    destruct (loop_Inv env user k 0 w (pristine_Inv w Hw))
      as (r & w2 & Hloop & _ & _ & [[Hp Hd] _] & _); [done|].
    subst w'. rewrite Hloop. done.
Qed.

(** ** A failure in the middle of the batch *)









(** ** A failed publish after a successful push *)

(** C10. Whenever, for a dirty element within budget that needs review,
    the remote accepts the push and the hosting service then refuses the
    pull request, [pushChanges] raises that refusal and marks the element
    [pushFailed] although the trace holds the accepted push of its branch;
    and there is such an execution. *)
Theorem publish_not_atomic :
  (∀ env w element e L a rm n x,
     elements w !! element = Some e →
     dirty e = true →
     needsReview e = true →
     fst (pushIsAllowed env w) = Ok true →
     let t1 := trace w ++ [Called (GetRemote (repo e) "origin")] in
     let t2 := t1 ++ [Called (RemotePush rm (refspec L L)
                                (GITHUB_TOKEN env, "x-oauth-basic"))] in
     let t3 := t2 ++ [Called (RateLimit 5000)] in
     let create := PullRequestsCreate "Automatic cleanup!"
                     (login (owner (ghRepo e))) (name (ghRepo e)) L "master" in
     repo_getRemote env (trace w) (repo e) "origin" = Resolves rm →
     remote_push env t1 rm (refspec L L) = Resolves n →
     pullRequests_create env t3 "Automatic cleanup!"
       (login (owner (ghRepo e))) (name (ghRepo e)) L "master" = Rejects x →
     let '(r, w') := pushChanges env element L a w in
     r = Throw x
     ∧ elements w' !! element = Some (set_flag Failed e)
     ∧ pushFailed (set_flag Failed e) = true
     ∧ pushSucceeded (set_flag Failed e) = pushSucceeded e
     ∧ trace w' = t3 ++ [Called create; Assigned element Failed]
     ∧ pushed_refspecs (trace w') = pushed_refspecs (trace w) ++ [refspec L L])
  ∧ (let env := pull_request_refused in
     let w := one_element true true in
     let '(r, w') := pushChanges env 0 "auto-cleanup" "bot" w in
     remote_push env [Called (GetRemote "repos/x" "origin")] "repos/x#origin"
       (refspec "auto-cleanup" "auto-cleanup") = Resolves 0%Z
     ∧ r = Throw boom
     ∧ (pushFailed <$> elements w' !! 0) = Some true
     ∧ (pushSucceeded <$> elements w' !! 0) = Some false
     ∧ pushed_refspecs (trace w') = [refspec "auto-cleanup" "auto-cleanup"]
     ∧ pull_requests (trace w') =
         [("Automatic cleanup!", "PolymerElements", "x", "auto-cleanup", "master")]).
Proof.
  split; [|vm_compute; by repeat split].
  intros env w element e L a rm n x Hel Hd Hrev Hallow t1 t2 t3 create Hrm Hpush Hpr.
  apply allowed_lt in Hallow.
  destruct (pushChanges_allowed env w element e L a Hel Hd Hallow)
    as (r0 & evs & Hpub & _ & ->).
  subst t1 t2 t3 create. unfold refspec in *.
  revert Hpub. unfold remote_branch. rewrite Hrev.
  unfold publish, pushBranch, createPullRequest, bind, get, await, ret, record,
    consumed.
  repeat (cbn [elements trace elementsPushed pushesDenied];
          first [rewrite Hel | rewrite Hrm | rewrite Hpush | rewrite Hrev
                | rewrite Hpr]).
  intros [= <- Hevs]. cbn [flag_of elements trace].
  split; [done|]. split; [by apply lookup_alter_same|].
  split; [done|]. split; [done|].
  rewrite (app_assoc (trace w)), <- Hevs. split; [by rewrite <- !app_assoc|].
  rewrite !pushed_refspecs_app. cbn. by rewrite !app_nil_r.
Qed.

(** ** Discovery *)

Lemma dedupe_loop_firsts repos : ∀ seen acc,
  dedupe_loop repos seen acc = acc ++ firsts seen repos.
Proof.
  induction repos as [|r rest IH]; intros seen acc; cbn.
  - by rewrite app_nil_r.
  - case_decide; rewrite IH; [done|]. by rewrite <- app_assoc.
Qed.

Lemma firsts_elem seen repos x :
  x ∈ firsts seen repos → (name x ∉ seen) ∧ x ∈ repos.
Proof.
  revert seen. induction repos as [|r rest IH]; intros seen; cbn.
  - by intros ?%elem_of_nil.
  - case_decide as Hin.
    + intros [? ?]%IH. split; [done|]. by apply list_elem_of_further.
    + intros Hx. apply elem_of_cons in Hx as [->|Hx].
      * split; [done|]. apply list_elem_of_here.
      * apply IH in Hx as [Hx ?]. apply not_elem_of_union in Hx as [_ Hx].
        split; [done|]. by apply list_elem_of_further.
Qed.

Lemma firsts_NoDup seen repos : NoDup (name <$> firsts seen repos).
Proof.
  revert seen. induction repos as [|r rest IH]; intros seen; cbn.
  - constructor.
  - case_decide; [apply IH|]. cbn. constructor; [|apply IH].
    intros (x & Hname & Hx)%list_elem_of_fmap.
    apply firsts_elem in Hx as [Hx _]. rewrite <- Hname in Hx. set_solver.
Qed.

Lemma firsts_sublist seen repos : sublist (firsts seen repos) repos.
Proof.
  revert seen. induction repos as [|r rest IH]; intros seen; cbn.
  - constructor.
  - case_decide; [apply sublist_cons|apply sublist_skip]; apply IH.
Qed.

(** Of the descriptors with a given name, exactly the first one is kept. *)
Lemma firsts_filter n repos : ∀ seen,
  filter (fun x => name x = n) (firsts seen repos)
  = if decide (n ∈ seen) then []
    else take 1 (filter (fun x => name x = n) repos).
Proof.
  induction repos as [|r rest IH]; intros seen; cbn [firsts].
  - by case_decide.
  - rewrite (filter_cons _ r rest).
    destruct (decide (name r ∈ seen)) as [Hr|Hr].
    + rewrite IH. destruct (decide (n ∈ seen)) as [|Hn]; [done|].
      destruct (decide (name r = n)) as [<-|]; done.
    + rewrite filter_cons, IH.
      destruct (decide (name r = n)) as [<-|Hne].
      * rewrite decide_True
          by (apply elem_of_union; left; by apply elem_of_singleton).
        by rewrite decide_False.
      * destruct (decide (n ∈ seen)) as [Hn|Hn].
        -- by rewrite decide_True by (apply elem_of_union; by right).
        -- rewrite decide_False; [done|]. intros Hu.
           apply elem_of_union in Hu as [Hu|Hu]; [|done].
           apply elem_of_singleton in Hu. congruence.
Qed.

(** The paging loop, when page [page + i] of the listing is [ps !! i]:
    full pages [pages], then a short page [last]. *)
Lemma fetch_pages_run (env : Env) (pages : list (list Repo)) (last : list Repo) :
  ∀ fuel page acc w,
    (∀ tr i p, (pages ++ [last]) !! i = Some p →
       repos_getFromOrg env tr "PolymerElements" per_page (page + i) = Resolves p) →
    Forall (fun p => per_page ≤ length p) pages →
    length last < per_page →
    length pages < fuel →
    fst (fetch_pages env fuel page acc w) = Ok (acc ++ concat (pages ++ [last])).
Proof.
  induction pages as [|p pages IH]; intros fuel page acc w Horacle Hfull Hlast Hfuel.
  - destruct fuel as [|fuel]; [cbn in Hfuel; lia|].
    cbn [fetch_pages]. unfold bind, await.
    specialize (Horacle (trace w) 0 last eq_refl).
    rewrite Nat.add_0_r in Horacle. rewrite Horacle.
    apply Nat.ltb_lt in Hlast. rewrite Hlast. cbn. by rewrite app_nil_r.
  - destruct fuel as [|fuel]; [cbn in Hfuel; lia|].
    cbn [fetch_pages]. unfold bind, await.
    pose proof (Horacle (trace w) 0 p eq_refl) as H0.
    rewrite Nat.add_0_r in H0. rewrite H0.
    apply Forall_cons in Hfull as [Hp Hfull].
    apply Nat.ltb_ge in Hp. rewrite Hp.
    rewrite IH; [by rewrite <- app_assoc| |done|done|cbn in Hfuel; lia].
    intros tr i q Hq. rewrite Nat.add_succ_comm. by apply Horacle.
Qed.

(** C7. Whatever list discovery has accumulated, [getRepos] returns its
    de-duplication.  In the result, the descriptors of any given name are
    exactly the first descriptor of that name in the accumulated list: each
    name that was met occurs exactly once, with its first-seen descriptor,
    and no name occurs twice.  The result is a sublist of the accumulated
    list, so the kept descriptors stay in their order.  When the listing
    consists of full pages followed by a short one, the accumulated list is
    the root repository followed by the pages in order, and [getRepos]
    returns. *)
Theorem getRepos_dedupe :
  (∀ repos : list Repo,
     let out := dedupe repos in
     (∀ n, filter (fun x => name x = n) out
           = take 1 (filter (fun x => name x = n) repos))
     ∧ (∀ r, r ∈ repos → length (filter (fun x => name x = name r) out) = 1)
     ∧ NoDup (name <$> out)
     ∧ sublist out repos)
  ∧ (∀ env fuel w,
       getRepos env fuel w =
         match discover env fuel w with
         | (Ok repos, w') => (Ok (dedupe repos), w')
         | (Throw x, w') => (Throw x, w')
         | (OutOfFuel, w') => (OutOfFuel, w')
         end)
  ∧ (∀ env root pages last fuel w,
       (∀ tr, repos_get env tr "Polymer" "polymer" = Resolves root) →
       (∀ tr i p, (pages ++ [last]) !! i = Some p →
          repos_getFromOrg env tr "PolymerElements" per_page i = Resolves p) →
       Forall (fun p => per_page ≤ length p) pages →
       length last < per_page →
       length pages < fuel →
       fst (getRepos env fuel w) = Ok (dedupe (root :: concat (pages ++ [last])))).
Proof.
  split; [|split].
  - intros repos out. subst out. unfold dedupe.
    rewrite dedupe_loop_firsts. cbn [app].
    split; [|split; [|split]].
    + intros n. rewrite firsts_filter. by rewrite decide_False by set_solver.
    + intros r Hr. rewrite firsts_filter, decide_False by set_solver.
      assert (r ∈ filter (fun x => name x = name r) repos) as Hin
        by (by apply list_elem_of_filter).
      destruct (filter (fun x => name x = name r) repos); [|done].
      by apply elem_of_nil in Hin.
    + apply firsts_NoDup.
    + apply firsts_sublist.
  - intros env fuel w. unfold getRepos, bind, ret.
    by destruct (discover env fuel w) as [[repos|x|] w'].
  - intros env root pages last fuel w Hroot Hpages Hfull Hlast Hfuel.
    unfold getRepos, discover, bind at 1 2, await. rewrite Hroot.
    pose proof (fetch_pages_run env pages last fuel 0 [root]
                  (record (Called (ReposGet "Polymer" "polymer")) w)
                  Hpages Hfull Hlast Hfuel) as Hrun.
    destruct (fetch_pages env fuel 0 [root] _) as [r w']. cbn in Hrun.
    by rewrite Hrun.
Qed.

(** C7, on a concrete listing in which the page repeats two
    repositories. *)
Lemma getRepos_dedupe_witness :
  fst (getRepos repeating 1 init_world)
  = Ok [polymer; element_repo "a"; element_repo "b"; element_repo "c"].
Proof.
  rewrite (proj2 (proj2 getRepos_dedupe) repeating polymer []
             (three ++ [element_repo "b"; element_repo "a"]) 1 init_world).
  - vm_compute. reflexivity.
  - intros tr. reflexivity.
  - intros tr [|i] p H; cbn in H; [|done]. injection H as <-. reflexivity.
  - constructor.
  - vm_compute. lia.
  - vm_compute. lia.
Defined.

(** ** The delay chain *)

Lemma calls_bounds (qs : list RateGovernor.Request) : ∀ prev i s c,
  RateGovernor.calls qs prev !! i = Some (s, c) →
  ∃ q, qs !! i = Some q
       ∧ (prev ≤ s)%N
       ∧ (RateGovernor.now q ≤ s)%N
       ∧ c = (s + RateGovernor.elapsed q)%N.
Proof.
  induction qs as [|q qs IH]; intros prev i s c Hi; [done|].
  cbn in Hi. destruct i as [|i]; cbn in Hi.
  - injection Hi as <- <-. exists q. unfold RateGovernor.started.
    repeat split; lia.
  - destruct (IH _ _ _ _ Hi) as (q' & Hq & Hprev & Hnow & Hc).
    exists q'. unfold RateGovernor.started in Hprev. repeat split; try done. lia.
Qed.

(** A later call starts its delay no sooner than an earlier call's
    promise resolved. *)
Lemma calls_ordered (qs : list RateGovernor.Request) : ∀ prev i j s c s' c',
  i < j →
  RateGovernor.calls qs prev !! i = Some (s, c) →
  RateGovernor.calls qs prev !! j = Some (s', c') →
  (c ≤ s')%N.
Proof.
  induction qs as [|q qs IH]; intros prev i j s c s' c' Hij Hi Hj; [done|].
  cbn in Hi, Hj. destruct j as [|j]; [lia|]. cbn in Hj.
  destruct i as [|i]; cbn in Hi.
  - injection Hi as <- <-.
    destruct (calls_bounds _ _ _ _ _ Hj) as (_ & _ & Hprev & _). done.
  - eapply IH; [|done..]. lia.
Qed.

(** A timer that Node keeps, armed with a delay within the range of the
    timers, takes no less than the delay. *)
Lemma timer_kept_delay (q : RateGovernor.Request) :
  RateGovernor.timer_kept q →
  (RateGovernor.delay q ≤ RateGovernor.TIMEOUT_MAX)%N →
  (RateGovernor.delay q ≤ RateGovernor.elapsed q)%N.
Proof.
  unfold RateGovernor.timer_kept, RateGovernor.timeout.
  case_decide; lia.
Qed.

Lemma calls_equal_delay d (ts : list (N * N)) : ∀ prev i s c,
  (d ≤ RateGovernor.TIMEOUT_MAX)%N →
  Forall RateGovernor.timer_kept (RateGovernor.equal_delay d ts) →
  RateGovernor.calls (RateGovernor.equal_delay d ts) prev !! i = Some (s, c) →
  (prev + N.of_nat (S i) * d ≤ c)%N.
Proof.
  induction ts as [|[t l] ts IH]; intros prev i s c Hd Hts Hi; [done|].
  cbn [RateGovernor.equal_delay map] in Hts.
  apply Forall_cons in Hts as [Ht Hts].
  apply timer_kept_delay in Ht; [|done]. cbn in Ht.
  cbn in Hi. destruct i as [|i]; cbn in Hi.
  - injection Hi as <- <-. unfold RateGovernor.started. cbn. lia.
  - apply IH in Hi; [|done..]. unfold RateGovernor.started in Hi. cbn in Hi. lia.
Qed.

(** C9, refuted as stated: two calls made at time 0 ask for a delay of
    2147483648 milliseconds, one more than a timer keeps.  Node arms each
    timer for one millisecond and fires it then, so that the second promise
    resolves at time 2, long before twice the delay has passed since the
    first delay started. *)
Lemma rateLimit_beyond_timer_range :
  let d := 2147483648%N in
  let qs := RateGovernor.equal_delay d [(0, 1); (0, 1)]%N in
  RateGovernor.timeout d = 1%N
  ∧ Forall RateGovernor.timer_kept qs
  ∧ RateGovernor.calls qs RateGovernor.initial = [(0, 1); (1, 2)]%N
  ∧ ¬ (0 + 2 * d ≤ 2)%N.
Proof.
  split; [|split; [|split]].
  - reflexivity.
  - repeat constructor; vm_compute; discriminate.
  - reflexivity.
  - vm_compute. done.
Qed.

(** C9, amended.  For any sequence of calls of [rateLimit], made at any
    times and whatever the timers do: the delay of each call starts no
    sooner than the call and no sooner than the promise of the call before
    it resolved, and its promise resolves when its timer fires, so that the
    promises resolve in call order, one delay after the other.  The
    promise of a call whose timer Node keeps and whose delay is at most
    [TIMEOUT_MAX] resolves no sooner than that delay after the delay
    started; and when all calls ask for the same delay [d], at most
    [TIMEOUT_MAX], and Node keeps their timers, the promise of the [i]-th
    call (counting from one) resolves no sooner than [i * d] after the
    delay of the first call started. *)
Theorem rateLimit_serial :
  (∀ (qs : list RateGovernor.Request),
     let rs := RateGovernor.calls qs RateGovernor.initial in
     length rs = length qs
     ∧ (∀ i q s c, qs !! i = Some q → rs !! i = Some (s, c) →
          (RateGovernor.now q ≤ s)%N ∧ c = (s + RateGovernor.elapsed q)%N)
     ∧ (∀ i j s c s' c', i < j → rs !! i = Some (s, c) → rs !! j = Some (s', c') →
          (c ≤ s')%N ∧ (c ≤ c')%N)
     ∧ (∀ i q s c, qs !! i = Some q → rs !! i = Some (s, c) →
          RateGovernor.timer_kept q →
          (RateGovernor.delay q ≤ RateGovernor.TIMEOUT_MAX)%N →
          (s + RateGovernor.delay q ≤ c)%N))
  ∧ (∀ (d : N) (ts : list (N * N)),
       let qs := RateGovernor.equal_delay d ts in
       let rs := RateGovernor.calls qs RateGovernor.initial in
       (d ≤ RateGovernor.TIMEOUT_MAX)%N →
       Forall RateGovernor.timer_kept qs →
       ∀ i s0 c0 s c, rs !! 0 = Some (s0, c0) → rs !! i = Some (s, c) →
         (s0 + N.of_nat (S i) * d ≤ c)%N).
Proof.
  split.
  - intros qs rs. split; [|split; [|split]].
    + subst rs. generalize RateGovernor.initial.
      induction qs as [|q qs IH]; intros prev; [done|]. cbn. by rewrite IH.
    + intros i q s c Hq Hr.
      destruct (calls_bounds _ _ _ _ _ Hr) as (q' & Hq' & _ & Hnow & ->).
      rewrite Hq in Hq'. injection Hq' as <-. done.
    + intros i j s c s' c' Hij Hi Hj.
      pose proof (calls_ordered _ _ _ _ _ _ _ _ Hij Hi Hj) as Hle.
      destruct (calls_bounds _ _ _ _ _ Hj) as (q' & _ & _ & _ & ->). lia.
    + intros i q s c Hq Hr Hkept Hd.
      destruct (calls_bounds _ _ _ _ _ Hr) as (q' & Hq' & _ & _ & ->).
      rewrite Hq in Hq'. injection Hq' as <-.
      apply timer_kept_delay in Hkept; [|done]. lia.
  - intros d ts qs rs Hd Hts i s0 c0 s c H0 Hi. subst rs qs.
    destruct ts as [|[t l] ts]; [done|].
    cbn [RateGovernor.equal_delay map] in Hts.
    apply Forall_cons in Hts as [Ht Hts].
    apply timer_kept_delay in Ht; [|done]. cbn in Ht.
    cbn in H0, Hi. injection H0 as <- <-. destruct i as [|i]; cbn in Hi.
    + injection Hi as <- <-. cbn. lia.
    + apply calls_equal_delay in Hi; [|done..]. cbn in Hi. lia.
Qed.

(** C9, amended, on three calls that ask for 5000 milliseconds, the delay
    of [createPullRequest]: the third promise resolves after 15000. *)
Lemma rateLimit_serial_witness :
  let qs := RateGovernor.equal_delay 5000 [(0, 5000); (0, 5003); (7, 5001)]%N in
  RateGovernor.calls qs RateGovernor.initial
  = [(0, 5000); (5000, 10003); (10003, 15004)]%N
  ∧ (0 + N.of_nat 3 * 5000 ≤ 15004)%N.
Proof.
  split; [reflexivity|].
  destruct rateLimit_serial as [_ H].
  apply (H 5000%N [(0, 5000); (0, 5003); (7, 5001)]%N
           ltac:(vm_compute; discriminate)
           ltac:(repeat constructor; vm_compute; discriminate)
           2 0%N 5000%N 10003%N 15004%N eq_refl eq_refl).
Defined.

(** * Further properties *)

(** ** Keeping a property through the flow *)

Lemma respects_ret P {A} (a : A) : respects P (ret a).
Proof. by intros w Hw. Qed.

Lemma respects_throw P {A} (x : exn) : respects P (throw (A:=A) x).
Proof. by intros w Hw. Qed.

Lemma respects_bind P {A B} (m : M A) (k : A → M B) :
  respects P m → (∀ a, respects P (k a)) → respects P (bind m k).
Proof.
  intros Hm Hk w Hw. specialize (Hm w Hw). unfold bind.
  destruct (m w) as [[a|x|] w1]; cbn [snd] in *; [by apply Hk|done..].
Qed.

Lemma respects_try_catch P {A} (m : M A) (h : exn → M A) :
  respects P m → (∀ x, respects P (h x)) → respects P (try_catch m h).
Proof.
  intros Hm Hh w Hw. specialize (Hm w Hw). unfold try_catch.
  destruct (m w) as [[a|x|] w1]; cbn [snd] in *; [done|by apply Hh|done].
Qed.

Lemma respects_get P {A} k (f : ElementRepo → A) : respects P (get k f).
Proof. intros w Hw. unfold get. by destruct (elements w !! k). Qed.

Lemma respects_for_each P {A} (l : list A) (body : A → M unit) :
  (∀ x, respects P (body x)) → respects P (for_each l body).
Proof.
  intros Hbody. induction l as [|x l IH]; [apply respects_ret|].
  cbn [for_each]. apply respects_bind; [apply Hbody|by intros _].
Qed.

Lemma respects_fetch_pages P env :
  (∀ c o, local_call c = true → not_cleanup c = true →
          respects P (await (A:=list Repo) c o)) →
  ∀ fuel page repos, respects P (fetch_pages env fuel page repos).
Proof.
  intros Hawait. induction fuel as [|fuel IH]; intros page repos;
    [by intros w Hw|].
  cbn [fetch_pages]. apply respects_bind; [by apply Hawait|].
  intros resultsPage.
  destruct (length resultsPage <? per_page); [apply respects_ret|apply IH].
Qed.

(** ** The budget over a whole run *)

Lemma within_budget_record_local env c w :
  local_call c = true → within_budget env w →
  within_budget env (record (Called c) w).
Proof.
  intros Hc (H1 & H2 & H3 & H4 & H5). unfold within_budget, record.
  cbn [elementsPushed pushesDenied trace].
  rewrite pushed_refspecs_app, pull_requests_app, issue_edits_app.
  destruct c; try discriminate; cbn; rewrite !app_nil_r; done.
Qed.

Lemma within_budget_await env {A} c (o : list Event → Reply A) :
  local_call c = true → respects (within_budget env) (await c o).
Proof.
  intros Hc w Hw. unfold await.
  destruct (o (trace w)); cbn [snd]; by apply within_budget_record_local.
Qed.

Lemma within_budget_trace env w evs :
  pushed_refspecs evs = [] → pull_requests evs = [] → issue_edits evs = [] →
  within_budget env w →
  within_budget env
    (mkWorld (elementsPushed w) (pushesDenied w) (elements w) (trace w ++ evs)).
Proof.
  intros E1 E2 E3 (H1 & H2 & H3 & H4 & H5). unfold within_budget.
  cbn [elementsPushed pushesDenied trace].
  rewrite pushed_refspecs_app, pull_requests_app, issue_edits_app, E1, E2, E3.
  by rewrite !app_nil_r.
Qed.

Lemma within_budget_elements env g w :
  within_budget env w →
  within_budget env
    (mkWorld (elementsPushed w) (pushesDenied w) (g (elements w)) (trace w)).
Proof. done. Qed.

Lemma within_budget_cleanup env k : respects (within_budget env) (cleanup env k).
Proof.
  intros w Hw. unfold cleanup. destruct (elements w !! k) as [e|]; [|done].
  destruct (cleanup_passes env (trace w) e) as [[d r] err].
  assert (within_budget env
            (record (Called (Cleanup (dir e))) (update k (set_changes d r) w))).
  { by apply within_budget_record_local. }
  by destruct err.
Qed.

(** What [publish] asks for, by count. *)
Lemma publish_requests (env : Env) (w : World) (element : nat)
    (L R a : string) :
  ∃ r evs,
    publish env element L R a w =
      (r, mkWorld (elementsPushed w) (pushesDenied w) (elements w) (trace w ++ evs))
    ∧ length (pushed_refspecs evs) ≤ 1
    ∧ length (pull_requests evs) ≤ length (pushed_refspecs evs)
    ∧ length (issue_edits evs) ≤ length (pull_requests evs)
    ∧ cleanups evs = []
    ∧ ∀ j, assignments j evs = [].
Proof.
  unfold publish, pushBranch, createPullRequest, bind, get, await, ret, record.
  cbn. destruct (elements w !! element) as [e|] eqn:Hel; cbn.
  - repeat first
      [ rewrite Hel
      | run_step
      | match goal with
        | |- context [if needsReview e then _ else _] =>
            destruct (needsReview e) eqn:?
        end
      | progress cbn ];
      rewrite <- ?app_assoc; cbn;
      (eexists _, _; split; [reflexivity|]); cbn; repeat split; lia.
  - eexists _, []. rewrite app_nil_r. destruct w. cbn. repeat split; lia.
Qed.

Lemma within_budget_pushChanges env k L a :
  respects (within_budget env) (pushChanges env k L a).
Proof.
  intros w Hw. unfold pushChanges, bind at 1, get.
  destruct (elements w !! k) as [e|] eqn:Hel; [|done].
  destruct (dirty e) eqn:Hd; cbn [negb]; [|done].
  unfold bind at 1, pushIsAllowed.
  destruct Hw as (H1 & H2 & H3 & H4 & H5).
  destruct (Nat.ltb_spec (elementsPushed w) (max_changes env)) as [Hlt|Hge];
    cbn [negb].
  - unfold bind at 1, get. cbn [elements]. rewrite Hel.
    fold (consumed w). unfold bind, try_catch.
    destruct (publish_requests env (consumed w) k L
                (if needsReview e then L else "master") a)
      as (r & evs & -> & P1 & P2 & P3 & _).
    assert (within_budget env
              (mkWorld (S (elementsPushed w)) (pushesDenied w) (elements w)
                 ((trace w ++ evs)))) as Hmid.
    { unfold within_budget. cbn [elementsPushed pushesDenied trace].
      rewrite pushed_refspecs_app, pull_requests_app, issue_edits_app,
        !length_app.
      repeat split; lia. }
    assert (∀ f, within_budget env
              (record (Assigned k f)
                 (update k (set_flag f)
                    (mkWorld (S (elementsPushed w)) (pushesDenied w)
                       (elements w) (trace w ++ evs))))) as Hend.
    { intros f. by apply (within_budget_trace env _ [Assigned k f]). }
    unfold consumed. cbn [elementsPushed pushesDenied elements trace].
    destruct r as [[]|x|]; cbn [snd]; [| |done].
    + unfold assign. cbn [elements]. rewrite Hel. apply Hend.
    + unfold assign, throw. cbn [elements]. rewrite Hel. apply Hend.
  - unfold assign. cbn [elements]. rewrite Hel. cbn [snd].
    apply (within_budget_trace env _ [Assigned k Denied]); try done.
    unfold within_budget, update. cbn [elementsPushed pushesDenied trace].
    split; [done|]. split; [done|]. split; [done|]. split; [done|].
    intros _. lia.
Qed.

Lemma within_budget_process env user k :
  respects (within_budget env) (process env user k).
Proof.
  unfold process, chain, checkoutNewBranch.
  apply respects_bind; [apply respects_get|]. intros d.
  case_decide; [apply respects_ret|].
  apply respects_try_catch.
  - repeat first
      [ apply respects_get
      | apply within_budget_pushChanges
      | apply within_budget_cleanup
      | by apply within_budget_await
      | apply respects_bind; [|intros ?] ].
  - intros x. apply respects_bind; [apply respects_get|].
    intros d'. apply respects_throw.
Qed.

Lemma within_budget_prepare env fuel :
  respects (within_budget env) (prepare env fuel).
Proof.
  unfold prepare, getRepos, discover.
  repeat first
    [ by apply within_budget_await
    | apply respects_ret
    | apply respects_fetch_pages; intros; by apply within_budget_await
    | (intros w Hw; by apply within_budget_elements)
    | apply respects_bind; [|intros ?] ].
Qed.

Lemma within_budget_console env lines w :
  within_budget env w → within_budget env (console_log lines w).
Proof.
  intros Hw. apply within_budget_trace; [..|done]; by induction lines.
Qed.

Lemma within_budget_main (env : Env) (fuel : nat) :
  within_budget env (snd (main env fuel init_world)).
Proof.
  assert (within_budget env init_world) as Hinit.
  { unfold within_budget. cbn. repeat split; lia. }
  assert (respects (within_budget env) (_main env fuel)) as Hmain.
  { unfold _main, transform_all, reportOnChangesMade.
    apply respects_bind; [apply within_budget_prepare|]. intros user.
    apply respects_bind.
    { intros w Hw. apply respects_for_each; [|done].
      intros k. apply within_budget_process. }
    intros _. apply respects_bind.
    - intros w Hw. by apply within_budget_console.
    - intros _ w Hw. by apply within_budget_console. }
  specialize (Hmain init_world Hinit). unfold main.
  destruct (_main env fuel init_world) as [[[]|x|] w]; cbn [snd] in *;
    [done| |done].
  apply (within_budget_trace env _ [console_error_stack_or_value x]);
    [by destruct (console_error_stack_or_value_cases x)
          as [(s & _ & _ & ->)|[_ ->]]..|].
  apply (within_budget_trace env _ [ConsoleError _]); try done.
  by apply within_budget_console.
Qed.

(** X1. Over a whole run the budget bounds everything that is published:
    there are no more issue edits than pull requests, no more pull requests
    than pushes, no more pushes than [elementsPushed], and [elementsPushed]
    never exceeds [max_changes]; so at most [max_changes] elements end up
    marked succeeded. *)
Theorem run_within_budget (env : Env) (fuel : nat) :
  let w' := snd (main env fuel init_world) in
  length (issue_edits (trace w')) ≤ length (pull_requests (trace w'))
  ∧ length (pull_requests (trace w')) ≤ length (pushed_refspecs (trace w'))
  ∧ length (pushed_refspecs (trace w')) ≤ elementsPushed w'
  ∧ elementsPushed w' ≤ max_changes env
  ∧ count_where pushSucceeded (elements w') ≤ max_changes env.
Proof.
  intros w'.
  destruct (within_budget_main env fuel) as (H1 & H2 & H3 & H4 & _).
  destruct (main_Inv env fuel) as [[Hp _] _]. fold w' in H1, H2, H3, H4, Hp.
  repeat split; try done. lia.
Qed.

(** X2. Nothing is denied while an allowance is left: if a run denied any
    element, then [elementsPushed] has reached [max_changes], and the
    elements marked succeeded or failed are [max_changes] in number. *)
Theorem denied_only_when_exhausted (env : Env) (fuel : nat) :
  let w' := snd (main env fuel init_world) in
  0 < count_where pushDenied (elements w') →
  pushesDenied w' = count_where pushDenied (elements w')
  ∧ elementsPushed w' = max_changes env
  ∧ count_where pushSucceeded (elements w') + count_where pushFailed (elements w')
    = max_changes env.
Proof.
  intros w' Hdenied.
  destruct (within_budget_main env fuel) as (_ & _ & _ & _ & H5).
  destruct (main_Inv env fuel) as [[Hp Hd] _]. fold w' in H5, Hp, Hd.
  rewrite <- Hd in Hdenied. specialize (H5 Hdenied). repeat split; lia.
Qed.

(** X2, on the run with three dirty elements and a budget of one. *)
Lemma denied_only_when_exhausted_witness :
  elementsPushed (snd (main budget_of_one 5 init_world)) = 1.
Proof.
  apply (denied_only_when_exhausted budget_of_one 5). vm_compute. lia.
Defined.

(** On a run that returns normally the last thing printed is the summary
    line for the final counters. *)
Lemma main_returned_summary (env : Env) (fuel : nat) (w0 : World) :
  fst (main env fuel w0) = Returned →
  last (trace (snd (main env fuel w0)))
  = Some (ConsoleLog (summary env (snd (main env fuel w0)))).
Proof.
  unfold main, _main, bind, reportOnChangesMade.
  destruct (prepare env fuel w0) as [[user|x|] w1]; [|done..].
  destruct (transform_all env user w1) as [[[]|x|] w2]; [|done..].
  intros _. cbn [snd]. unfold console_log at 1. cbn [trace map].
  by rewrite last_snoc.
Qed.

(** X3. With the default maximum of zero a run publishes nothing: no push,
    no pull request and no issue edit is requested, no element is marked
    succeeded or failed, and if the run returns normally its last line is
    either ['No changes needed!'] or the count of changes that are ready
    to push. *)
Theorem dry_run_publishes_nothing (env : Env) (fuel : nat) :
  max_changes env = 0 →
  let '(ending, w') := main env fuel init_world in
  pushed_refspecs (trace w') = []
  ∧ pull_requests (trace w') = []
  ∧ issue_edits (trace w') = []
  ∧ elementsPushed w' = 0
  ∧ count_where pushSucceeded (elements w') = 0
  ∧ count_where pushFailed (elements w') = 0
  ∧ (ending = Returned →
     last (trace w') = Some (ConsoleLog "No changes needed!")
     ∨ (0 < pushesDenied w'
        ∧ last (trace w') =
            Some (ConsoleLog
                    (pretty (pushesDenied w') +:+ " changes ready to push. "
                     +:+ "Call with --max_changes=N to push them up!")))).
Proof.
  intros Hmax.
  pose proof (within_budget_main env fuel) as (H1 & H2 & H3 & H4 & _).
  pose proof (main_Inv env fuel) as [[Hp _] _].
  pose proof (main_returned_summary env fuel init_world) as Hlast.
  destruct (main env fuel init_world) as [ending w']. cbn [fst snd] in *.
  assert (elementsPushed w' = 0) as Hzero by lia.
  rewrite Hzero in *.
  split; [apply length_zero_iff_nil; lia|].
  split; [apply length_zero_iff_nil; lia|].
  split; [apply length_zero_iff_nil; lia|].
  split; [done|]. split; [lia|]. split; [lia|].
  intros Hend. rewrite (Hlast Hend). unfold summary. rewrite Hzero, Hmax.
  destruct (decide (pushesDenied w' = 0)) as [Hd|Hd].
  - left. by rewrite decide_True.
  - right. split; [lia|]. rewrite decide_False by (intros [_ ?]; done).
    by rewrite decide_True.
Qed.

(** X3, on the run with one dirty element and no budget. *)
Lemma dry_run_publishes_nothing_witness :
  pushed_refspecs (trace (snd (main dry_run 5 init_world))) = []
  ∧ pushesDenied (snd (main dry_run 5 init_world)) = 1.
Proof.
  pose proof (dry_run_publishes_nothing dry_run 5 eq_refl) as H.
  destruct (main dry_run 5 init_world) as [ending w'] eqn:Hrun.
  destruct H as (Hpush & _). split; [exact Hpush|].
  vm_compute in Hrun. injection Hrun as _ <-. reflexivity.
Defined.

(** ** Excluded directories *)

Lemma cleanups_app tr1 tr2 : cleanups (tr1 ++ tr2) = cleanups tr1 ++ cleanups tr2.
Proof. apply omap_app. Qed.

Lemma spared_at_trace k w evs p d :
  cleanups evs = [] → spared_at k w →
  spared_at k (mkWorld p d (elements w) (trace w ++ evs)).
Proof.
  intros Hevs [Hs Hk]. split; [|done]. unfold spared in *. cbn [trace].
  by rewrite cleanups_app, Hevs, app_nil_r.
Qed.

Lemma spared_at_await k {A} c (o : list Event → Reply A) :
  not_cleanup c = true → respects (spared_at k) (await c o).
Proof.
  intros Hc w Hw. unfold await, record.
  destruct (o (trace w)); cbn [snd];
    (apply spared_at_trace; [|done]); by destruct c.
Qed.

Lemma spared_at_pushIsAllowed env k : respects (spared_at k) (pushIsAllowed env).
Proof.
  intros w Hw. unfold pushIsAllowed.
  destruct (elementsPushed w <? max_changes env); cbn [snd];
    rewrite <- (app_nil_r (trace w)); by apply spared_at_trace.
Qed.

Lemma lookup_alter_dir (g : ElementRepo → ElementRepo) j k
    (els : list ElementRepo) e :
  (∀ x, dir (g x) = dir x) →
  alter g j els !! k = Some e →
  ∃ e0, els !! k = Some e0 ∧ dir e = dir e0.
Proof.
  intros Hg Hel. destruct (decide (j = k)) as [->|Hne].
  - rewrite list_lookup_alter_eq in Hel.
    destruct (els !! k) as [e0|]; [|done]. injection Hel as <-.
    exists e0. by rewrite Hg.
  - rewrite list_lookup_alter_ne in Hel by done. by exists e.
Qed.

Lemma spared_at_assign k j f : respects (spared_at k) (assign j f).
Proof.
  intros w [Hs Hk]. unfold assign.
  destruct (elements w !! j) as [e|] eqn:Hel; [|done]. cbn [snd].
  split.
  - unfold spared, record, update in *. cbn [trace].
    by rewrite cleanups_app, app_nil_r.
  - intros e' He'. unfold record, update in He'. cbn [elements] in He'.
    apply lookup_alter_dir in He' as (e0 & He0 & ->); [by apply Hk|].
    by destruct f.
Qed.

Lemma spared_at_cleanup env k : respects (spared_at k) (cleanup env k).
Proof.
  intros w Hw. unfold cleanup.
  destruct (elements w !! k) as [e|] eqn:Hel; [|exact Hw].
  destruct Hw as [Hs Hk].
  destruct (cleanup_passes env (trace w) e) as [[d r] err].
  assert (spared_at k
            (record (Called (Cleanup (dir e))) (update k (set_changes d r) w))).
  { split.
    - unfold spared, record, update in *. cbn [trace].
      rewrite cleanups_app. apply Forall_app. split; [done|].
      apply Forall_singleton. by apply Hk.
    - intros e' He'. unfold record, update in He'. cbn [elements] in He'.
      apply lookup_alter_dir in He' as (e0 & He0 & ->); [by apply Hk|done]. }
  by destruct err.
Qed.

Ltac respects_steps prims :=
  repeat first
    [ apply respects_get
    | apply respects_ret
    | apply respects_throw
    | prims
    | match goal with
      | |- respects _ (if ?b then _ else _) => destruct b
      end
    | apply respects_bind; [|intros ?]
    | apply respects_try_catch; [|intros ?] ].

Lemma spared_at_pushChanges env k L a :
  respects (spared_at k) (pushChanges env k L a).
Proof.
  unfold pushChanges, publish, pushBranch, createPullRequest. cbv zeta.
  respects_steps
    ltac:(first [ apply spared_at_assign
                | apply spared_at_pushIsAllowed
                | by apply spared_at_await ]).
Qed.

Lemma spared_process env user k : respects spared (process env user k).
Proof.
  intros w Hw. unfold process, bind at 1, get.
  destruct (elements w !! k) as [e|] eqn:Hel; [|done].
  case_decide as Hex; [done|].
  assert (respects (spared_at k)
            (try_catch (chain env user k)
               (fun err => bind (get k dir)
                             (fun d' => throw (wrapped env d' err))))) as Hchain.
  { unfold chain, checkoutNewBranch.
    respects_steps
      ltac:(first [ apply spared_at_pushChanges
                  | apply spared_at_cleanup
                  | by apply spared_at_await ]). }
  apply Hchain. split; [done|]. intros e' He'. by simplify_eq.
Qed.

Lemma spared_await {A} c (o : list Event → Reply A) :
  not_cleanup c = true → respects spared (await c o).
Proof.
  intros Hc w Hw. unfold await, record, spared in *.
  destruct (o (trace w)); cbn [snd trace]; rewrite cleanups_app;
    destruct c; try discriminate; by rewrite app_nil_r.
Qed.

Lemma spared_console lines w : spared w → spared (console_log lines w).
Proof.
  unfold spared, console_log. cbn [trace]. rewrite cleanups_app.
  intros Hw. apply Forall_app. split; [done|].
  assert (cleanups (map ConsoleLog lines) = []) as -> by (by induction lines).
  constructor.
Qed.

Lemma spared_main (env : Env) (fuel : nat) :
  spared (snd (main env fuel init_world)).
Proof.
  assert (respects spared (_main env fuel)) as Hmain.
  { unfold _main, prepare, getRepos, discover, transform_all,
      reportOnChangesMade.
    respects_steps
      ltac:(first [ by apply spared_await
                  | apply respects_fetch_pages; intros; by apply spared_await
                  | (intros w Hw; exact Hw)
                  | (intros w Hw; apply respects_for_each; [|done];
                     intros k; apply spared_process)
                  | (intros w Hw; by apply spared_console) ]). }
  assert (spared init_world) as Hinit by constructor.
  specialize (Hmain init_world Hinit). unfold main.
  destruct (_main env fuel init_world) as [[[]|x|] w]; cbn [snd] in *;
    [done| |done].
  unfold spared, record. cbn [trace].
  assert (cleanups [console_error_stack_or_value x] = []) as Hx
    by (by destruct (console_error_stack_or_value_cases x)
             as [(s & _ & _ & ->)|[_ ->]]).
  rewrite !cleanups_app, Hx, !app_nil_r.
  by apply spared_console.
Qed.

(** X4. The directories that [_main] excludes are never handed to the
    cleanup passes: in no run does the trace hold a cleanup of
    [repos/polymer], [repos/style-guide], [repos/test-all],
    [repos/ContributionGuide] or [repos/paper-listbox]. *)
Theorem excluded_never_cleaned (env : Env) (fuel : nat) (d : string) :
  d ∈ cleanups (trace (snd (main env fuel init_world))) →
  (d ∉ excludes)
  ∧ d ≠ "repos/polymer" ∧ d ≠ "repos/style-guide" ∧ d ≠ "repos/test-all"
  ∧ d ≠ "repos/ContributionGuide" ∧ d ≠ "repos/paper-listbox".
Proof.
  intros Hd. pose proof (spared_main env fuel) as Hs.
  assert (d ∉ excludes) as Hex.
  { by apply (proj1 (Forall_forall _ _) Hs). }
  split; [done|]. repeat split; intros ->; apply Hex; by vm_compute.
Qed.

(** X4, on the run with three dirty elements: [repos/a] is cleaned up. *)
Lemma excluded_never_cleaned_witness : "repos/a" ∉ excludes.
Proof.
  apply (excluded_never_cleaned budget_of_one 5 "repos/a").
  vm_compute. apply list_elem_of_here.
Defined.

(** ** When [pushChanges] raises *)

(** X5. [pushChanges] raises only out of a publish it attempted: if it
    raises [x] on an element, that element was dirty, the budget had an
    allowance left and has consumed it, the push or pull-request steps
    raised that very [x], and the element is now marked [pushFailed].  It
    never raises on a clean or a denied element. *)
Theorem pushChanges_raises_only_failed (env : Env) (w : World) (element : nat)
    (e : ElementRepo) (localBranchName assignee : string) (x : exn)
    (w' : World) :
  elements w !! element = Some e →
  pushChanges env element localBranchName assignee w = (Throw x, w') →
  dirty e = true
  ∧ elementsPushed w < max_changes env
  ∧ elementsPushed w' = S (elementsPushed w)
  ∧ pushesDenied w' = pushesDenied w
  ∧ fst (publish env element localBranchName
           (remote_branch e localBranchName) assignee (consumed w)) = Throw x
  ∧ elements w' !! element = Some (set_flag Failed e)
  ∧ pushFailed (set_flag Failed e) = true.
Proof.
  intros Hel Hrun. destruct (dirty e) eqn:Hd.
  - destruct (Nat.ltb_spec (elementsPushed w) (max_changes env)) as [Hlt|Hge].
    + destruct (pushChanges_allowed env w element e localBranchName assignee
                  Hel Hd Hlt) as (r0 & evs & Hpub & _ & Hpc).
      rewrite Hpc in Hrun. injection Hrun as -> <-. rewrite Hpub.
      cbn [fst elementsPushed pushesDenied elements flag_of].
      repeat split; try done. by apply lookup_alter_same.
    + exfalso. revert Hrun. unfold pushChanges, bind, get. rewrite Hel, Hd.
      cbn [negb]. unfold pushIsAllowed. apply Nat.ltb_ge in Hge. rewrite Hge.
      cbn [negb]. unfold assign. cbn [elements]. by rewrite Hel.
  - exfalso. revert Hrun. unfold pushChanges, bind, get. by rewrite Hel, Hd.
Qed.

(** X5, on the element whose push the remote refuses. *)
Lemma pushChanges_raises_only_failed_witness :
  (pushFailed <$>
     elements (snd (pushChanges push_refused 0 "auto-cleanup" "bot"
                      (one_element true false))) !! 0) = Some true.
Proof.
  destruct (pushChanges_raises_only_failed push_refused
              (one_element true false) 0 _ "auto-cleanup" "bot" boom
              (snd (pushChanges push_refused 0 "auto-cleanup" "bot"
                      (one_element true false))) eq_refl)
    as (_ & _ & _ & _ & _ & Hel & _).
  - vm_compute. reflexivity.
  - rewrite Hel. reflexivity.
Defined.

(** ** The report *)

Lemma group_lines_nil message (group : list ElementRepo) :
  group_lines message group = [] ↔ group = [].
Proof. by destruct group. Qed.

Lemma count_where_zero p (els : list ElementRepo) :
  filter (fun e => p e = true) els = [] ↔ Forall (fun e => p e = false) els.
Proof.
  induction els as [|e els IH]; [by split; [constructor|]|].
  rewrite filter_cons, Forall_cons. destruct (p e) eqn:Hp.
  - rewrite decide_True by done. split; [done|]. by intros [? _].
  - rewrite decide_False by done. rewrite IH. split; [done|]. by intros [_ ?].
Qed.

Lemma outcomes_set_flags e :
  outcomes_set e = 0 ↔
  pushDenied e = false ∧ pushSucceeded e = false ∧ pushFailed e = false.
Proof.
  split; [apply outcomes_set_zero|]. intros (Hd & Hs & Hf).
  unfold outcomes_set. by rewrite Hd, Hs, Hf.
Qed.

Lemma report_silent_lemma (els : list ElementRepo) :
  Forall (fun e => outcomes_set e = 0) els ↔ report_lines els = [].
Proof.
  unfold report_lines. rewrite !app_nil, !group_lines_nil, !count_where_zero.
  rewrite !Forall_forall. setoid_rewrite outcomes_set_flags. split.
  - intros H. repeat split; intros e He; by destruct (H e He) as (? & ? & ?).
  - intros (Hd & Hs & Hf) e He. by repeat split; [apply Hd|apply Hs|apply Hf].
Qed.

(** X6. [reportOnChangesMade] prints nothing at all exactly when no element
    carries a push outcome, in particular on an empty array; otherwise it
    prints at least a header and a directory. *)
Theorem report_silent_without_outcomes (els : list ElementRepo) :
  (report_lines els = [] ↔ Forall (fun e => outcomes_set e = 0) els)
  ∧ report_lines [] = []
  ∧ (report_lines els ≠ [] → 2 ≤ length (report_lines els)).
Proof.
  split; [symmetry; apply report_silent_lemma|]. split; [done|].
  unfold report_lines. intros Hne.
  assert (∀ m (g : list ElementRepo),
            g = [] ∨ 2 ≤ length (group_lines m g)) as Hgroup.
  { intros m [|x g]; [by left|]. right. cbn. lia. }
  rewrite !length_app.
  destruct (Hgroup "Elements that would have been pushed:"
              (filter (fun e => pushDenied e = true) els)) as [E1|?]; [|lia].
  destruct (Hgroup "Elements pushed successfully:"
              (filter (fun e => pushSucceeded e = true) els)) as [E2|?]; [|lia].
  destruct (Hgroup "Elements that I tried to push that FAILED:"
              (filter (fun e => pushFailed e = true) els)) as [E3|?]; [|lia].
  by rewrite E1, E2, E3 in Hne.
Qed.

Lemma directory_lines_group message (group : list ElementRepo) :
  length (filter (fun s => is_directory_line s = true)
            (group_lines message group))
  = length group.
Proof.
  destruct group as [|x group]; [done|]. unfold group_lines.
  rewrite filter_cons_False by (intros H; vm_compute in H; discriminate).
  generalize (x :: group). intros l. induction l as [|y l IH]; [done|].
  cbn [map]. rewrite filter_cons_True by (by destruct (dir y)).
  cbn [length]. by rewrite IH.
Qed.

(** X7. At the end of every run, the directories named in the report are
    as many as the two counters together: each element that was allowed or
    denied is listed, and none is listed twice. *)
Theorem report_lists_what_the_counters_count (env : Env) (fuel : nat) :
  let w' := snd (main env fuel init_world) in
  length (filter (fun s => is_directory_line s = true)
            (report_lines (elements w')))
  = elementsPushed w' + pushesDenied w'.
Proof.
  intros w'. destruct (main_Inv env fuel) as [[Hp Hd] _].
  fold w' in Hp, Hd. unfold report_lines.
  rewrite !filter_app, !length_app, !directory_lines_group.
  unfold count_where in Hp, Hd. lia.
Qed.

(** X8. A run that fails before the loop (in the reset of the working
    directory, the user lookup, discovery, cloning or analysis) prints no
    report line: [main] prints only the blank lines and the error (its
    stack when it has one, else the value itself), and exits with status 1,
    with both counters at zero. *)
Theorem failure_before_loop (env : Env) (fuel : nat) (x : exn) (w : World) :
  prepare env fuel init_world = (Throw x, w) →
  report_lines (elements w) = []
  ∧ ∃ w', main env fuel init_world = (Exited 1, w')
          ∧ elements w' = elements w
          ∧ elementsPushed w' = 0 ∧ pushesDenied w' = 0
          ∧ trace w' =
              trace w ++ [ConsoleError (nl +:+ nl);
                          console_error_stack_or_value x].
Proof.
  intros Hprep.
  pose proof (keeps_prepare env fuel init_world pristine_init) as Hw.
  rewrite Hprep in Hw. cbn [snd] in Hw.
  destruct Hw as (Hp & Hd & Hall & _).
  assert (report_lines (elements w) = []) as Hnil.
  { by apply (proj1 (report_silent_lemma (elements w))). }
  split; [done|]. eexists. unfold main, _main, bind. rewrite Hprep.
  split; [done|]. unfold record, console_log. cbn [elements trace
    elementsPushed pushesDenied]. rewrite Hnil. cbn [map].
  by rewrite app_nil_r, <- app_assoc.
Qed.

(** X8, on a run whose first listing request is refused. *)
Lemma failure_before_loop_witness :
  fst (main listing_refused 5 init_world) = Exited 1.
Proof.
  destruct (failure_before_loop listing_refused 5 boom
              (snd (prepare listing_refused 5 init_world)))
    as (_ & w' & Hmain & _); [vm_compute; reflexivity|].
  by rewrite Hmain.
Defined.

(** ** More on de-duplication *)

Lemma firsts_fixed seen (repos : list Repo) :
  firsts seen repos = repos ↔
  NoDup (name <$> repos) ∧ ∀ r, r ∈ repos → name r ∉ seen.
Proof.
  split.
  - intros Heq. split.
    + rewrite <- Heq. apply firsts_NoDup.
    + intros r Hr. rewrite <- Heq in Hr. by apply firsts_elem in Hr as [? _].
  - revert seen. induction repos as [|r rest IH]; intros seen [Hnd Hseen];
      [done|].
    cbn [firsts]. rewrite decide_False by (apply Hseen, list_elem_of_here).
    f_equal. apply IH. cbn in Hnd. apply NoDup_cons in Hnd as [Hr Hnd].
    split; [done|]. intros x Hx Hin.
    apply elem_of_union in Hin as [Hin|Hin].
    + apply elem_of_singleton in Hin. apply Hr. rewrite <- Hin.
      by apply list_elem_of_fmap_2.
    + by apply (Hseen x); [apply list_elem_of_further|].
Qed.

Lemma dedupe_firsts repos : dedupe repos = firsts ∅ repos.
Proof. unfold dedupe. by rewrite dedupe_loop_firsts. Qed.

(** X9. De-duplication leaves a list as it is exactly when its names are
    pairwise distinct; hence de-duplicating twice is the same as once, and
    a list without repeated names loses nothing. *)
Theorem dedupe_fixed_point :
  (∀ repos : list Repo, dedupe repos = repos ↔ NoDup (name <$> repos))
  ∧ (∀ repos : list Repo, dedupe (dedupe repos) = dedupe repos).
Proof.
  assert (∀ repos : list Repo, dedupe repos = repos ↔ NoDup (name <$> repos))
    as Hfix.
  { intros repos. rewrite dedupe_firsts, firsts_fixed. split; [by intros [? _]|].
    intros Hnd. split; [done|]. intros r _. apply not_elem_of_empty. }
  split; [done|]. intros repos. apply Hfix.
  rewrite dedupe_firsts. apply firsts_NoDup.
Qed.

Lemma dedupe_names (repos : list Repo) (n : string) :
  n ∈ (name <$> dedupe repos) ↔ n ∈ (name <$> repos).
Proof.
  rewrite dedupe_firsts. split.
  - intros (x & -> & Hx)%list_elem_of_fmap.
    apply firsts_elem in Hx as [_ Hx]. by apply list_elem_of_fmap_2.
  - intros (x & -> & Hx)%list_elem_of_fmap.
    assert (x ∈ filter (fun y => name y = name x) repos) as Hin
      by (by apply list_elem_of_filter).
    pose proof (firsts_filter (name x) repos ∅) as Hf.
    rewrite decide_False in Hf by apply not_elem_of_empty.
    destruct (filter (fun y => name y = name x) repos) as [|y l];
      [by apply elem_of_nil in Hin|].
    assert (y ∈ filter (fun y => name y = name x) (firsts ∅ repos)) as Hy
      by (rewrite Hf; apply list_elem_of_here).
    apply list_elem_of_filter in Hy as [Hname Hy]. rewrite <- Hname.
    by apply list_elem_of_fmap_2.
Qed.

(** X10. The de-duplicated list has as many descriptors as the list it was
    made from has distinct names, and so never more than that list. *)
Theorem dedupe_length (repos : list Repo) :
  length (dedupe repos) = size (list_to_set (name <$> repos) : gset string)
  ∧ length (dedupe repos) ≤ length repos.
Proof.
  split.
  - assert ((list_to_set (name <$> repos) : gset string)
            = list_to_set (name <$> dedupe repos)) as ->.
    { apply set_eq. intros n. rewrite !elem_of_list_to_set.
      by rewrite dedupe_names. }
    rewrite size_list_to_set, length_fmap; [done|].
    rewrite dedupe_firsts. apply firsts_NoDup.
  - rewrite dedupe_firsts. apply sublist_length, firsts_sublist.
Qed.

(** ** Paging *)

(** The paging loop on a listing of full pages [pages] followed by a final
    answer [fin], a short page or a refusal. *)
Lemma fetch_pages_listing (env : Env) (pages : list (list Repo))
    (fin : Reply (list Repo)) :
  ∀ fuel page acc w,
    (∀ tr i p, pages !! i = Some p →
       repos_getFromOrg env tr "PolymerElements" per_page (page + i)
       = Resolves p) →
    (∀ tr, repos_getFromOrg env tr "PolymerElements" per_page
             (page + length pages) = fin) →
    Forall (fun p => per_page ≤ length p) pages →
    match fin with Resolves l => length l < per_page | Rejects _ => True end →
    length pages < fuel →
    fetch_pages env fuel page acc w =
      (match fin with
       | Resolves l => Ok (acc ++ concat pages ++ l)
       | Rejects x => Throw x
       end,
       mkWorld (elementsPushed w) (pushesDenied w) (elements w)
         (trace w ++ page_requests page (S (length pages)))).
Proof.
  induction pages as [|p pages IH];
    intros fuel page acc w Hpages Hfin Hfull Hshort Hfuel;
    (destruct fuel as [|fuel]; [cbn in Hfuel; lia|]);
    cbn [fetch_pages]; unfold bind, await, record.
  - specialize (Hfin (trace w)). cbn [length] in Hfin.
    rewrite Nat.add_0_r in Hfin. rewrite Hfin.
    unfold page_requests. cbn [seq map concat app].
    destruct fin as [l|x]; [|done].
    apply Nat.ltb_lt in Hshort. by rewrite Hshort.
  - pose proof (Hpages (trace w) 0 p eq_refl) as H0.
    rewrite Nat.add_0_r in H0. rewrite H0.
    apply Forall_cons in Hfull as [Hp Hfull].
    apply Nat.ltb_ge in Hp. rewrite Hp.
    rewrite (IH fuel (S page) (acc ++ p)); [| | |done|done|cbn in Hfuel; lia].
    + cbn [trace elementsPushed pushesDenied elements length concat].
      unfold page_requests. cbn [seq map].
      destruct fin; rewrite <- ?app_assoc; cbn [app]; done.
    + intros tr i q Hq. rewrite Nat.add_succ_comm. by apply Hpages.
    + intros tr. rewrite Nat.add_succ_comm. apply Hfin.
Qed.

(** X11. On a listing of full pages followed by a short one, [getRepos]
    asks for the root repository and then for the pages 0, 1, 2, ... in
    order, one request more than there are full pages and nothing else; it
    returns the de-duplication of the root followed by all the pages, and
    leaves counters and elements alone. *)
Theorem getRepos_requests (env : Env) (root : Repo)
    (pages : list (list Repo)) (last : list Repo) (fuel : nat) (w : World) :
  (∀ tr, repos_get env tr "Polymer" "polymer" = Resolves root) →
  (∀ tr i p, pages !! i = Some p →
     repos_getFromOrg env tr "PolymerElements" per_page i = Resolves p) →
  (∀ tr, repos_getFromOrg env tr "PolymerElements" per_page (length pages)
         = Resolves last) →
  Forall (fun p => per_page ≤ length p) pages →
  length last < per_page →
  length pages < fuel →
  getRepos env fuel w =
    (Ok (dedupe (root :: concat pages ++ last)),
     mkWorld (elementsPushed w) (pushesDenied w) (elements w)
       (trace w ++ Called (ReposGet "Polymer" "polymer")
          :: page_requests 0 (S (length pages))))
  ∧ pages_requested (page_requests 0 (S (length pages)))
    = seq 0 (S (length pages)).
Proof.
  intros Hroot Hpages Hlast Hfull Hshort Hfuel. split.
  - unfold getRepos, discover, bind at 1 2, await. rewrite Hroot.
    rewrite (fetch_pages_listing env pages (Resolves last)); try done.
    unfold ret, record. cbn [trace elementsPushed pushesDenied elements app].
    by rewrite <- app_assoc.
  - unfold page_requests. generalize 0, (S (length pages)).
    intros a n. revert a. induction n as [|n IH]; intros a; [done|].
    cbn. f_equal. apply IH.
Qed.

(** X11, on the organisation of 150 repositories listed in two pages. *)
Lemma getRepos_requests_witness :
  fst (getRepos two_pages 3 init_world) = Ok (polymer :: large_org)
  ∧ pages_requested (trace (snd (getRepos two_pages 3 init_world))) = [0; 1].
Proof.
  destruct (getRepos_requests two_pages polymer [take 100 large_org]
              (drop 100 large_org) 3 init_world) as [Hrun _].
  - intros tr. reflexivity.
  - intros tr [|i] p H; [|done]. injection H as <-. vm_compute. reflexivity.
  - intros tr. vm_compute. reflexivity.
  - constructor; [vm_compute; lia|constructor].
  - vm_compute. lia.
  - vm_compute. lia.
  - rewrite Hrun. vm_compute. split; reflexivity.
Defined.

(** X12. A refused listing request aborts discovery: when the pages before
    it were full, [getRepos] raises the refusal of that request, returns
    no partial list, and asks for no further page. *)
Theorem getRepos_listing_refused (env : Env) (root : Repo)
    (pages : list (list Repo)) (x : exn) (fuel : nat) (w : World) :
  (∀ tr, repos_get env tr "Polymer" "polymer" = Resolves root) →
  (∀ tr i p, pages !! i = Some p →
     repos_getFromOrg env tr "PolymerElements" per_page i = Resolves p) →
  (∀ tr, repos_getFromOrg env tr "PolymerElements" per_page (length pages)
         = Rejects x) →
  Forall (fun p => per_page ≤ length p) pages →
  length pages < fuel →
  getRepos env fuel w =
    (Throw x,
     mkWorld (elementsPushed w) (pushesDenied w) (elements w)
       (trace w ++ Called (ReposGet "Polymer" "polymer")
          :: page_requests 0 (S (length pages)))).
Proof.
  intros Hroot Hpages Hlast Hfull Hfuel.
  unfold getRepos, discover, bind at 1 2, await. rewrite Hroot.
  rewrite (fetch_pages_listing env pages (Rejects x)); try done.
  unfold record. cbn [trace elementsPushed pushesDenied elements app].
  by rewrite <- app_assoc.
Qed.

(** X12, on the organisation whose second page is refused. *)
Lemma getRepos_listing_refused_witness :
  fst (getRepos second_page_refused 3 init_world) = Throw boom.
Proof.
  rewrite (getRepos_listing_refused second_page_refused polymer
             [take 100 large_org] boom 3 init_world).
  - reflexivity.
  - intros tr. reflexivity.
  - intros tr [|i] p H; [|done]. injection H as <-. vm_compute. reflexivity.
  - intros tr. reflexivity.
  - constructor; [vm_compute; lia|constructor].
  - vm_compute. lia.
Defined.

(** ** The elements that the loop starts from *)










(** ** Concurrent calls of the delay chain *)




(** ** The [max_changes] option *)

Lemma append_assoc (s1 s2 s3 : string) :
  (s1 +:+ s2) +:+ s3 = s1 +:+ (s2 +:+ s3).
Proof.
  induction s1 as [|c s1 IH]; [done|].
  change (String c ((s1 +:+ s2) +:+ s3) = String c (s1 +:+ (s2 +:+ s3))).
  by rewrite IH.
Qed.

Lemma parseInt_digits_app s1 : ∀ acc s2,
  parseInt_digits acc (s1 +:+ s2) = parseInt_digits (parseInt_digits acc s1) s2.
Proof.
  induction s1 as [|c s1 IH]; intros acc s2; [done|].
  change (String c s1 +:+ s2) with (String c (s1 +:+ s2)).
  cbn [parseInt_digits]. apply IH.
Qed.

Lemma all_digits_app s1 s2 :
  all_digits (s1 +:+ s2) = all_digits s1 && all_digits s2.
Proof.
  induction s1 as [|c s1 IH]; [done|].
  change (String c s1 +:+ s2) with (String c (s1 +:+ s2)).
  cbn [all_digits]. rewrite IH. by destruct (is_digit c).
Qed.

Lemma pretty_N_char_digit (m : N) :
  (m < 10)%N →
  is_digit (pretty_N_char m) = true
  ∧ nat_of_ascii (pretty_N_char m) - 48 = N.to_nat m.
Proof.
  intros Hm.
  assert (m = 0 ∨ m = 1 ∨ m = 2 ∨ m = 3 ∨ m = 4 ∨ m = 5 ∨ m = 6 ∨ m = 7
          ∨ m = 8 ∨ m = 9)%N as Hcases by lia.
  repeat (destruct Hcases as [->|Hcases]); [..|subst m]; by vm_compute.
Qed.

(** The digits that [pretty] puts in front of [s] are digits, and read back
    as the number. *)
Lemma pretty_N_go_digits (x : N) : ∀ s,
  ∃ pre, pretty_N_go x s = pre +:+ s
         ∧ all_digits pre = true
         ∧ parseInt_digits 0 pre = N.to_nat x.
Proof.
  induction (N.lt_wf_0 x) as [x _ IH]. intros s.
  destruct (decide (x = 0)%N) as [->|Hx].
  - exists "". by rewrite pretty_N_go_0.
  - rewrite pretty_N_go_step by lia.
    destruct (IH (x `div` 10)%N) with (s := String (pretty_N_char (x `mod` 10)) s)
      as (pre & Hgo & Hdig & Hval); [apply N.div_lt; lia|].
    destruct (pretty_N_char_digit (x `mod` 10)) as [Hc Hv];
      [apply N.mod_lt; lia|].
    exists (pre +:+ String (pretty_N_char (x `mod` 10)) "").
    split; [|split].
    + rewrite Hgo. by rewrite append_assoc.
    + rewrite all_digits_app, Hdig. cbn. by rewrite Hc.
    + rewrite parseInt_digits_app, Hval. cbn [parseInt_digits]. rewrite Hv.
      rewrite (N.div_mod x 10) at 3 by lia.
      rewrite N2Nat.inj_add, N2Nat.inj_mul. reflexivity.
Qed.

Lemma all_digits_reject s1 c s2 :
  is_digit c = false → all_digits (s1 +:+ String c s2) = false.
Proof.
  intros Hc. rewrite all_digits_app. cbn. rewrite Hc.
  by destruct (all_digits s1).
Qed.

(** X14. The [max_changes] option reads back every number written in
    decimal (below 2^53, where JavaScript numbers are exact), reads the
    empty value as 0, and refuses any value that holds a character other
    than a digit (a sign, a space, a decimal point) with an error that
    quotes the value. *)
Theorem max_changes_type_round_trip :
  (∀ n : nat, (N.of_nat n < 2 ^ 53)%N → max_changes_type (pretty n) = inl n)
  ∧ max_changes_type "" = inl 0
  ∧ (∀ s1 c s2, is_digit c = false →
       max_changes_type (s1 +:+ String c s2)
       = inr ("invalid max changes, expected an integer: "
              +:+ s1 +:+ String c s2)).
Proof.
  split; [|split; [done|]].
  - intros n _. unfold pretty, pretty_nat, pretty, pretty_N.
    destruct (decide (N.of_nat n = 0)%N) as [Hz|Hz].
    + assert (n = 0) as -> by lia. reflexivity.
    + destruct (pretty_N_go_digits (N.of_nat n) "") as (pre & Hgo & Hdig & Hval).
      rewrite Hgo.
      unfold max_changes_type.
      destruct (decide (pre +:+ "" = "")) as [He|He].
      * exfalso. destruct pre; [|done]. cbn in Hval. lia.
      * rewrite all_digits_app, Hdig. cbn [all_digits andb].
        rewrite parseInt_digits_app, Hval. cbn [parseInt_digits].
        by rewrite Nat2N.id.
  - intros s1 c s2 Hc. unfold max_changes_type.
    rewrite decide_False by (by destruct s1).
    by rewrite all_digits_reject.
Qed.
